(** * SnidghasSudoku: the Sudoku engine (class SudokuGenerator)

    A shallow embedding of the generator, validator, carver, solver and hint
    provider, and the properties of the specification checked against it.

    Conventions of the embedding.
    - A grid is a JavaScript array of arrays of integers: [list (list Z)].
      Sizes, rows and columns are natural numbers.
    - [grid[r][c]] can yield a number, [undefined] (column out of range) or
      raise a TypeError (row out of range, so that [undefined[c]] is
      evaluated): see [readCell].
    - [Date.now()] and [Math.random()] are oracles carried by the state: the
      k-th call of each returns [clock s k] and [random s k], and the state
      counts the calls made.  A result of [Math.random()] is a rational of
      [0, 1), and products with it are taken exactly.
    - Recursive searches take a fuel argument; the entry points supply
      enough of it, which is proved ([solvePuzzle_total], [fillGrid_spec]).
    - The generator is modelled for box sizes that are whole numbers, the
      solver for every grid. *)

From Stdlib Require Import ZArith Lia List Bool Permutation.
From Stdlib Require QArith Qround.
From stdpp Require Import base list.

Abbreviation Grid := (list (list Z)).

(** ** Reading and writing cells *)

(** A number used as an array index: a whole number, or a number that is not
    whole (it then names no element). *)
Inductive index := Whole (n : nat) | Fractional.

Definition shift (i : index) (k : nat) : index :=
  match i with
  | Whole n => Whole (n + k)
  | Fractional => Fractional
  end.

(** The three things [grid[r][c]] can do. *)
Inductive read := Cell (v : Z) | Undefined | TypeError.

Definition readCell (g : Grid) (r c : index) : read :=
  match r with
  | Fractional => TypeError
  | Whole r =>
      match g !! r with
      | None => TypeError
      | Some cells =>
          match c with
          | Fractional => Undefined
          | Whole c =>
              match cells !! c with
              | Some v => Cell v
              | None => Undefined
              end
          end
      end
  end.

(** The content of a cell that exists. *)
Definition cell (g : Grid) (r c : nat) : option Z :=
  match g !! r with
  | Some cells => cells !! c
  | None => None
  end.

(** [grid[r][c] = v]. Every assignment of the engine is to a cell that
    exists (it follows a read of that cell, or runs over the dimensions the
    grid was allocated with), so no array is ever extended. *)
Definition writeCell (g : Grid) (r c : nat) (v : Z) : Grid :=
  alter (fun cells => <[c := v]> cells) r g.

(** [Array(size).fill().map(() => Array(size).fill(0))] *)
Definition emptyGrid (size : nat) : Grid := replicate size (replicate size 0%Z).

(** ** Results *)

(** A call that returns or throws. *)
Inductive outcome (A : Type) := Ret (a : A) | Throw.
Arguments Ret {A} a.
Arguments Throw {A}.

(** A run over a mutable state [S]: it returns [a] in state [s], throws in
    state [s], or the fuel of the model ran out. *)
Inductive run (S A : Type) := Done (a : A) (s : S) | Raised (s : S) | OutOfFuel.
Arguments Done {S A} a s.
Arguments Raised {S A} s.
Arguments OutOfFuel {S A}.

(** ** Validator *)

(** One scanning loop: does [num] occur at one of the listed cells?  The loop
    stops at the first hit, and a TypeError stops it too. *)
Fixpoint occursAt (g : Grid) (num : Z) (ps : list (index * index)) : outcome bool :=
  match ps with
  | [] => Ret false
  | (r, c) :: ps' =>
      match readCell g r c with
      | TypeError => Throw
      | Cell v => if Z.eqb v num then Ret true else occursAt g num ps'
      | Undefined => occursAt g num ps'
      end
  end.

Definition rowCells (size row : nat) : list (index * index) :=
  map (fun x => (Whole row, Whole x)) (seq 0 size).

Definition colCells (size col : nat) : list (index * index) :=
  map (fun x => (Whole x, Whole col)) (seq 0 size).

(** The cells [(startRow + i, startCol + j)] for [i < h], [j < w], row by row. *)
Definition window (startRow startCol : index) (h w : nat) : list (index * index) :=
  flat_map (fun i => map (fun j => (shift startRow i, shift startCol j)) (seq 0 w)) (seq 0 h).

(** The three checks in sequence: row, column, box. *)
Definition checkPlacement (g : Grid) (num : Z) (rowPs colPs boxPs : list (index * index))
  : outcome bool :=
  match occursAt g num rowPs with
  | Throw => Throw
  | Ret true => Ret false
  | Ret false =>
      match occursAt g num colPs with
      | Throw => Throw
      | Ret true => Ret false
      | Ret false =>
          match occursAt g num boxPs with
          | Throw => Throw
          | Ret true => Ret false
          | Ret false => Ret true
          end
      end
  end.

(** The 6x6 branch: boxes of 2 rows and 3 columns. *)
Definition box6Cells (row col : nat) : list (index * index) :=
  window (Whole (row / 2 * 2)) (Whole (col / 3 * 3)) 2 3.

(** The square branch with a whole box size [b]. *)
Definition boxCells (b row col : nat) : list (index * index) :=
  window (Whole (row / b * b)) (Whole (col / b * b)) b b.

(** [Math.floor(x / Math.sqrt(size)) * Math.sqrt(size)] when [size] is not a
    perfect square: it is 0 when [x < sqrt size], and not a whole number
    otherwise. *)
Definition surdStart (size x : nat) : index :=
  if x * x <? size then Whole 0 else Fractional.

(** The square branch of [isValidForGrid], with [boxSize = Math.sqrt(size)].
    For a perfect square this is the whole root.  Otherwise the root is
    irrational: [i < boxSize] holds for [i = 0 .. Nat.sqrt size], and the
    window starts at [surdStart]. *)
Definition sqrtBoxCells (size row col : nat) : list (index * index) :=
  let b := Nat.sqrt size in
  if b * b =? size then boxCells b row col
  else window (surdStart size row) (surdStart size col) (S b) (S b).

Definition isValidForGrid (g : Grid) (row col : nat) (num : Z) : outcome bool :=
  let size := length g in
  checkPlacement g num (rowCells size row) (colCells size col)
    (if size =? 6 then box6Cells row col else sqrtBoxCells size row col).

(** ** Solver *)

(** The cells in the order of the two nested loops. *)
Definition allCells (size : nat) : list (nat * nat) :=
  flat_map (fun row => map (fun col => (row, col)) (seq 0 size)) (seq 0 size).

(** [grid[row][col] === 0] *)
Definition isEmptyAt (g : Grid) (p : nat * nat) : bool :=
  match readCell g (Whole p.1) (Whole p.2) with
  | Cell v => Z.eqb v 0
  | _ => false
  end.

(** The first cell at which the scan of [solvePuzzle] finds a zero. *)
Definition firstEmpty (g : Grid) : option (nat * nat) :=
  find (isEmptyAt g) (allCells (length g)).

(** [for (let num = 1; num <= size; num++)] *)
Definition candidates (size : nat) : list Z := map Z.of_nat (seq 1 size).

(** The loop over the candidates at the empty cell [(row, col)]; [rec] is the
    recursive call of the solver. *)
Fixpoint tryValues (rec : Grid -> run Grid bool) (row col : nat) (nums : list Z) (g : Grid)
  : run Grid bool :=
  match nums with
  | [] => Done false g
  | num :: rest =>
      match isValidForGrid g row col num with
      | Throw => Raised g
      | Ret false => tryValues rec row col rest g
      | Ret true =>
          match rec (writeCell g row col num) with
          | Done true g' => Done true g'
          | Done false g' => tryValues rec row col rest (writeCell g' row col 0)
          | Raised g' => Raised g'
          | OutOfFuel => OutOfFuel
          end
      end
  end.

Fixpoint solvePuzzleFuel (fuel : nat) (g : Grid) : run Grid bool :=
  match fuel with
  | 0 => OutOfFuel
  | S fuel' =>
      match firstEmpty g with
      | None => Done true g
      | Some (row, col) => tryValues (solvePuzzleFuel fuel') row col (candidates (length g)) g
      end
  end.

(** The number of zero cells of a row, and of a grid. *)
Definition zerosIn (cells : list Z) : nat := length (filter (fun v => v = 0%Z) cells).

Definition zeros (g : Grid) : nat := list_sum (map zerosIn g).

(** Each recursive call fills one more zero cell, so this fuel is enough
    (see [solvePuzzle_total]). *)
Definition solvePuzzle (g : Grid) : run Grid bool := solvePuzzleFuel (S (zeros g)) g.

(** ** The generator object and its environment *)

(** A result of [Math.random()]: the rational [numer / (numer + slack + 1)],
    which ranges over the rationals of [0, 1) and over nothing else. *)
Record unitFrac := { numer : nat; slack : nat }.

(** [Math.floor(u * k)], with the product taken exactly. *)
Definition floorScale (u : unitFrac) (k : nat) : nat :=
  numer u * k / (numer u + slack u + 1).

(** What [generateComplete] writes to the console. *)
Inductive LogEntry :=
| LogSuccess (size attempts : nat)
| LogRetry (attempts : nat)
| LogFallback (maxAttempts : nat).

(** The fields of the object ([this_...]), the two oracles with the number
    of calls made so far, and the console. *)
Record State := {
  this_size : nat;
  this_boxSize : nat;
  this_grid : Grid;
  this_solution : Grid;
  clock : nat -> Z;
  ticks : nat;
  random : nat -> unitFrac;
  draws : nat;
  console : list LogEntry
}.

Definition withGrid (g : Grid) (s : State) : State :=
  {| this_size := this_size s; this_boxSize := this_boxSize s; this_grid := g;
     this_solution := this_solution s; clock := clock s; ticks := ticks s;
     random := random s; draws := draws s; console := console s |}.

Definition withSolution (g : Grid) (s : State) : State :=
  {| this_size := this_size s; this_boxSize := this_boxSize s; this_grid := this_grid s;
     this_solution := g; clock := clock s; ticks := ticks s;
     random := random s; draws := draws s; console := console s |}.

Definition consoleLog (e : LogEntry) (s : State) : State :=
  {| this_size := this_size s; this_boxSize := this_boxSize s; this_grid := this_grid s;
     this_solution := this_solution s; clock := clock s; ticks := ticks s;
     random := random s; draws := draws s; console := console s ++ [e] |}.

(** [Date.now()] *)
Definition dateNow (s : State) : Z * State :=
  (clock s (ticks s),
   {| this_size := this_size s; this_boxSize := this_boxSize s; this_grid := this_grid s;
      this_solution := this_solution s; clock := clock s; ticks := S (ticks s);
      random := random s; draws := draws s; console := console s |}).

(** [Math.random()] *)
Definition mathRandom (s : State) : unitFrac * State :=
  (random s (draws s),
   {| this_size := this_size s; this_boxSize := this_boxSize s; this_grid := this_grid s;
      this_solution := this_solution s; clock := clock s; ticks := ticks s;
      random := random s; draws := S (draws s); console := console s |}).

(** The constructor: a 9x9 generator in a given environment. *)
Definition newGenerator (now : nat -> Z) (rnd : nat -> unitFrac) : State :=
  {| this_size := 9; this_boxSize := 3; this_grid := emptyGrid 9;
     this_solution := emptyGrid 9; clock := now; ticks := 0;
     random := rnd; draws := 0; console := [] |}.

(** [setSize].  The last branch is [Math.sqrt(size)], the whole root when
    [size] is a perfect square.  For any other size the box size is not a
    whole number and the generator leaves this embedding; no statement below
    is about such a size. *)
Definition setSize (size : nat) (s : State) : State :=
  {| this_size := size;
     this_boxSize :=
       if size =? 4 then 2
       else if size =? 6 then 2
       else if size =? 9 then 3
       else Nat.sqrt size;
     this_grid := emptyGrid size;
     this_solution := emptyGrid size;
     clock := clock s; ticks := ticks s;
     random := random s; draws := draws s; console := console s |}.

(** ** shuffleArray *)

(** [[a[i], a[j]] = [a[j], a[i]]] *)
Definition swap {A} (l : list A) (i j : nat) : list A :=
  match l !! i, l !! j with
  | Some x, Some y => <[j := x]> (<[i := y]> l)
  | _, _ => l
  end.

(** The loop [for (let i = length - 1; i > 0; i--)]. *)
Fixpoint shuffleLoop {A} (i : nat) (shuffled : list A) (s : State) : list A * State :=
  match i with
  | 0 => (shuffled, s)
  | S i' =>
      let (u, s') := mathRandom s in
      let j := floorScale u (i + 1) in
      shuffleLoop i' (swap shuffled i j) s'
  end.

Definition shuffleArray {A} (array : list A) (s : State) : list A * State :=
  shuffleLoop (length array - 1) array s.

(** ** Validator of the generator *)

Definition isValid (s : State) (row col : nat) (num : Z) : outcome bool :=
  checkPlacement (this_grid s) num
    (rowCells (this_size s) row) (colCells (this_size s) col)
    (if this_size s =? 6 then box6Cells row col
     else boxCells (this_boxSize s) row col).

(** ** Grid filler *)

(** The loop [for (let num of numbers)] at the empty cell [(row, col)];
    [rec] is the recursive call on the next cell. *)
Fixpoint tryNumbers (rec : State -> run State bool) (row col : nat) (numbers : list Z)
  (s : State) : run State bool :=
  match numbers with
  | [] => Done false s
  | num :: rest =>
      match isValid s row col num with
      | Throw => Raised s
      | Ret false => tryNumbers rec row col rest s
      | Ret true =>
          match rec (withGrid (writeCell (this_grid s) row col num) s) with
          | Done true s' => Done true s'
          | Done false s' =>
              tryNumbers rec row col rest (withGrid (writeCell (this_grid s') row col 0) s')
          | Raised s' => Raised s'
          | OutOfFuel => OutOfFuel
          end
      end
  end.

(** [Array.from({length: size}, (_, i) => i + 1)] *)
Definition oneToSize (size : nat) : list Z := map (fun i => Z.of_nat i + 1)%Z (seq 0 size).

Fixpoint fillGridRecursive (fuel : nat) (row col : nat) (startTime timeout : Z) (s : State)
  : run State bool :=
  match fuel with
  | 0 => OutOfFuel
  | S fuel' =>
      let (t, s1) := dateNow s in
      if (t - startTime >? timeout)%Z then Done false s1
      else if row =? this_size s1 then Done true s1
      else if col =? this_size s1 then fillGridRecursive fuel' (row + 1) 0 startTime timeout s1
      else
        match readCell (this_grid s1) (Whole row) (Whole col) with
        | TypeError => Raised s1
        | Undefined => fillGridRecursive fuel' row (col + 1) startTime timeout s1
        | Cell v =>
            if Z.eqb v 0 then
              let (numbers, s2) := shuffleArray (oneToSize (this_size s1)) s1 in
              tryNumbers (fillGridRecursive fuel' row (col + 1) startTime timeout)
                row col numbers s2
            else fillGridRecursive fuel' row (col + 1) startTime timeout s1
        end
  end.

(** The calls of one attempt walk the cursor [(row, col)] forward through
    [size] rows of [size + 1] stops, and once more for [row = size]. *)
Definition fillFuel (size : nat) : nat := size * (size + 1) + 1.

Definition fillGrid (s : State) : run State bool :=
  let (startTime, s1) := dateNow s in
  let timeout := 5000%Z in
  fillGridRecursive (fillFuel (this_size s1)) 0 0 startTime timeout s1.

(** The cell value of the fallback pattern. *)
Definition fallbackValue (size boxSize row col : nat) : Z :=
  Z.of_nat ((row * boxSize + row / boxSize + col) mod size + 1).

Definition createFallbackGrid (s : State) : State :=
  withGrid
    (foldl (fun g p => writeCell g p.1 p.2 (fallbackValue (this_size s) (this_boxSize s) p.1 p.2))
       (this_grid s) (allCells (this_size s)))
    s.

(** The loop [while (attempts < maxAttempts)], on the number of attempts
    that remain, followed by the fallback. *)
Fixpoint attemptLoop (remaining attempts maxAttempts : nat) (s : State) : run State Grid :=
  match remaining with
  | 0 =>
      let s1 := consoleLog (LogFallback maxAttempts) s in
      let s2 := createFallbackGrid s1 in
      let s3 := withSolution (this_grid s2) s2 in
      Done (this_grid s3) s3
  | S remaining' =>
      let s1 := withGrid (emptyGrid (this_size s)) s in
      match fillGrid s1 with
      | Done true s2 =>
          let s3 := withSolution (this_grid s2) s2 in
          let s4 := consoleLog (LogSuccess (this_size s3) (attempts + 1)) s3 in
          Done (this_grid s4) s4
      | Done false s2 =>
          attemptLoop remaining' (attempts + 1) maxAttempts
            (consoleLog (LogRetry (attempts + 1)) s2)
      | Raised s2 => Raised s2
      | OutOfFuel => OutOfFuel
      end
  end.

Definition generateComplete (s : State) : run State Grid :=
  let maxAttempts := 10 in
  attemptLoop maxAttempts 0 maxAttempts s.

(** ** Puzzle carver *)

(** The table [removalPercentage], each fraction as numerator and
    denominator. *)
Definition removalPercentage (difficulty : nat) : option (nat * nat) :=
  match difficulty with
  | 1 => Some (3, 10)
  | 2 => Some (4, 10)
  | 3 => Some (5, 10)
  | 4 => Some (6, 10)
  | 5 => Some (65, 100)
  | _ => None
  end.

(** [removalPercentage[difficulty] || 0.6] *)
Definition percentage (difficulty : nat) : nat * nat :=
  match removalPercentage difficulty with
  | Some p => p
  | None => (6, 10)
  end.

(** [Math.floor(totalCells * percentage)], the product taken exactly.  For
    16, 36 and 81 cells no exact product is within rounding distance of a
    whole number it does not reach, so the floating-point product has the
    same floor. *)
Definition cellsToRemove (totalCells : nat) (p : nat * nat) : nat :=
  totalCells * p.1 / p.2.

(** The loop that zeroes the first [toRemove] shuffled positions. *)
Definition removeCells (puzzle : Grid) (toRemove : nat) (shuffledPositions : list (nat * nat))
  : Grid :=
  foldl (fun g p => writeCell g p.1 p.2 0) puzzle (take toRemove shuffledPositions).

(** [generatePuzzle]; the result is the pair [(puzzle, solution)]. *)
Definition generatePuzzle (difficulty size : nat) (s : State) : run State (Grid * Grid) :=
  let s1 := setSize size s in
  match generateComplete s1 with
  | Done _ s2 =>
      let puzzle := this_grid s2 in
      let totalCells := size * size in
      let toRemove := cellsToRemove totalCells (percentage difficulty) in
      let positions := allCells size in
      let (shuffledPositions, s3) := shuffleArray positions s2 in
      Done (removeCells puzzle toRemove shuffledPositions, this_solution s3) s3
  | Raised s2 => Raised s2
  | OutOfFuel => OutOfFuel
  end.

(** ** Hint provider *)

(** The object [{row, col, value}]; [hintValue] is [None] when
    [solution[row][col]] is [undefined]. *)
Record Hint := { hintRow : nat; hintCol : nat; hintValue : option Z }.

(** The two arrays a call of [getHint] works on, and the generator state. *)
Record HintState := { currentGrid : Grid; solutionGrid : Grid; generator : State }.

Definition getHint (h : HintState) : run HintState (option Hint) :=
  let size := length (currentGrid h) in
  let emptyCells := List.filter (isEmptyAt (currentGrid h)) (allCells size) in
  if length emptyCells =? 0 then Done None h
  else
    let (u, s1) := mathRandom (generator h) in
    let h1 := {| currentGrid := currentGrid h; solutionGrid := solutionGrid h;
                 generator := s1 |} in
    let randomIndex := floorScale u (length emptyCells) in
    match emptyCells !! randomIndex with
    | None => Raised h1
    | Some (row, col) =>
        match readCell (solutionGrid h) (Whole row) (Whole col) with
        | TypeError => Raised h1
        | Undefined => Done (Some {| hintRow := row; hintCol := col; hintValue := None |}) h1
        | Cell v => Done (Some {| hintRow := row; hintCol := col; hintValue := Some v |}) h1
        end
    end.

(** ** The Sudoku validity invariant *)

(** Box geometry: 2 rows by 3 columns for size 6, square otherwise. *)
Definition boxRows (N : nat) : nat := if N =? 6 then 2 else Nat.sqrt N.
Definition boxCols (N : nat) : nat := if N =? 6 then 3 else Nat.sqrt N.

Definition rowUnit (N r : nat) : list (nat * nat) := map (fun c => (r, c)) (seq 0 N).
Definition colUnit (N c : nat) : list (nat * nat) := map (fun r => (r, c)) (seq 0 N).

(** The [k]-th box, the boxes counted row by row. *)
Definition boxUnit (N k : nat) : list (nat * nat) :=
  let h := boxRows N in
  let w := boxCols N in
  let across := N / w in
  flat_map (fun i => map (fun j => (k / across * h + i, k mod across * w + j)) (seq 0 w))
    (seq 0 h).

(** All rows, all columns and all boxes. *)
Definition units (N : nat) : list (list (nat * nat)) :=
  map (rowUnit N) (seq 0 N) ++ map (colUnit N) (seq 0 N) ++ map (boxUnit N) (seq 0 N).

Definition valuesAt (g : Grid) (ps : list (nat * nat)) : list (option Z) :=
  map (fun p => cell g p.1 p.2) ps.

(** How often the value [v] occurs. *)
Definition occurrences (v : Z) (vs : list (option Z)) : nat :=
  length (List.filter (fun o => match o with Some w => Z.eqb w v | None => false end) vs).

(** Each of [1..N] occurs exactly once. *)
Definition eachOnce (N : nat) (vs : list (option Z)) : bool :=
  forallb (fun v => occurrences v vs =? 1) (candidates N).

(** The grid has [N] rows of [N] cells. *)
Definition hasShape (N : nat) (g : Grid) : bool :=
  (length g =? N) && forallb (fun cells => length cells =? N) g.

(** The grid is an [N] by [N] grid in which every row, every column and every
    box contains each of [1..N] exactly once. *)
Definition sudokuValid (N : nat) (g : Grid) : bool :=
  hasShape N g && forallb (fun u => eachOnce N (valuesAt g u)) (units N).

(** No cell is zero. *)
Definition complete (g : Grid) : bool :=
  forallb (fun cells => forallb (fun v => negb (Z.eqb v 0)) cells) g.

(** The supported sizes. *)
Definition supported (N : nat) : Prop := N = 4 \/ N = 6 \/ N = 9.

(** Every non-zero cell of [puzzle] has the same content in [solution]. *)
Definition agreesWith (puzzle solution : Grid) : Prop :=
  forall r c v, cell puzzle r c = Some v -> v <> 0%Z -> cell solution r c = Some v.

(** The removal fraction of a difficulty level, as the specification gives
    it: 0.30, 0.40, 0.50, 0.60, 0.65 for the levels 1 to 5, and 0.60 for any
    other level. *)
Definition removalFraction (difficulty : nat) : QArith_base.Q :=
  match difficulty with
  | 1 => QArith_base.Qmake 30 100
  | 2 => QArith_base.Qmake 40 100
  | 3 => QArith_base.Qmake 50 100
  | 4 => QArith_base.Qmake 60 100
  | 5 => QArith_base.Qmake 65 100
  | _ => QArith_base.Qmake 60 100
  end.

(** [min(floor(N * N * removalFraction(d)), N * N)] *)
Definition removalCount (N difficulty : nat) : Z :=
  let total := Z.of_nat (N * N) in
  Z.min (Qround.Qfloor (QArith_base.Qmult (QArith_base.inject_Z total)
                          (removalFraction difficulty)))
        total.

(** ** Concrete environments and grids *)

(** A full 4x4 grid that breaks every rule. *)
Definition allOnes4 : Grid :=
  [[1; 1; 1; 1]; [1; 1; 1; 1]; [1; 1; 1; 1]; [1; 1; 1; 1]]%Z.

(** A 4x4 grid whose first cell admits no value: 1, 2, 3 are in its row and
    4 is in its column. *)
Definition stuck4 : Grid :=
  [[0; 1; 2; 3]; [0; 0; 0; 0]; [4; 0; 0; 0]; [0; 0; 0; 0]]%Z.

(** The empty 6x6 grid with a single 4, at (0,3) and at (3,4). *)
Definition boxOnly6 : Grid := writeCell (emptyGrid 6) 0 3 4.
Definition colOnly6 : Grid := writeCell (emptyGrid 6) 3 4 4.

(** A clock that advances by six seconds between two readings. *)
Definition slowClock (k : nat) : Z := (6000 * Z.of_nat k)%Z.

(** A clock that stands still. *)
Definition frozenClock (k : nat) : Z := 0%Z.

(** [Math.random()] always returning 0. *)
Definition zeroRandom (k : nat) : unitFrac := {| numer := 0; slack := 0 |}.

(** A linear congruential sequence of fractions [x / 101]. *)
Definition lcgRandom (seed k : nat) : unitFrac :=
  let k' := Z.of_nat k in
  let x := Z.to_nat ((Z.of_nat seed + 37 * k' * k' + 11 * k') mod 101)%Z in
  {| numer := x; slack := 100 - x |}.

(** A generator of the size of [g] whose grid is [g]. *)
Definition generatorWith (g : Grid) : State :=
  withGrid g (setSize (length g) (newGenerator frozenClock zeroRandom)).

(** A generator of size 6 under the slow clock: every attempt times out. *)
Definition slowGenerator6 : State := setSize 6 (newGenerator slowClock zeroRandom).

(** The two grids of one run of [generatePuzzle]. *)
Definition puzzleOf (r : run State (Grid * Grid)) : Grid :=
  match r with Done (puzzle, _) _ => puzzle | _ => [] end.

Definition solutionOf (r : run State (Grid * Grid)) : Grid :=
  match r with Done (_, sol) _ => sol | _ => [] end.

(** ** Notions used in the proofs *)

(** Does the cell at [p] hold [num]?  This is the test [grid[r][c] === num]
    of the scanning loops, on a cell that exists. *)
Definition holds (g : Grid) (num : Z) (p : nat * nat) : bool :=
  match cell g p.1 p.2 with
  | Some v => Z.eqb v num
  | None => false
  end.

(** The same test on an index pair. *)
Definition hit (g : Grid) (num : Z) (p : index * index) : bool :=
  match readCell g p.1 p.2 with
  | Cell v => Z.eqb v num
  | _ => false
  end.

Definition whole (p : nat * nat) : index * index := (Whole p.1, Whole p.2).

(** The cells [(startRow + i, startCol + j)], [i < h], [j < w]. *)
Definition windowAt (startRow startCol h w : nat) : list (nat * nat) :=
  flat_map (fun i => map (fun j => (startRow + i, startCol + j)) (seq 0 w)) (seq 0 h).

(** The box around a cell. *)
Definition boxAround (N : nat) (p : nat * nat) : list (nat * nat) :=
  windowAt (p.1 / boxRows N * boxRows N) (p.2 / boxCols N * boxCols N) (boxRows N) (boxCols N).

(** The cells a validity check at [p] looks at: the row, the column and the
    box of [p], in this order. *)
Definition peers (N : nat) (p : nat * nat) : list (nat * nat) :=
  rowUnit N p.1 ++ colUnit N p.2 ++ boxAround N p.

(** The facts about rows, columns and boxes that the proofs rely on.  Each is
    decidable for a given size. *)
Record Geometry (N : nat) : Prop := {
  geo_peers_inside :
    Forall (fun p => Forall (fun q => q ∈ allCells N) (peers N p)) (allCells N);
  geo_peers_sym :
    Forall (fun p => Forall (fun q => p ∈ peers N q) (peers N p)) (allCells N);
  geo_units_peers :
    Forall (fun u => Forall (fun p => Forall (fun q => q ∈ peers N p) u) u) (units N);
  geo_units_shape :
    Forall (fun u => length u = N /\ NoDup u /\ Forall (fun p => p ∈ allCells N) u) (units N);
  geo_peers_units :
    Forall (fun p => Forall (fun q => Exists (fun u => p ∈ u /\ q ∈ u) (units N)) (peers N p))
      (allCells N);
  geo_self : Forall (fun p => p ∈ peers N p) (allCells N)
}.

(** The content of a grid is within [0..N]. *)
Definition InRange (N : nat) (g : Grid) : Prop :=
  forall r c v, cell g r c = Some v -> (0 <= v <= Z.of_nat N)%Z.

(** No value other than zero occurs twice among a cell and its peers. *)
Definition NoClash (N : nat) (g : Grid) : Prop :=
  forall p q v, p ∈ allCells N -> q ∈ peers N p -> q <> p ->
    cell g p.1 p.2 = Some v -> cell g q.1 q.2 = Some v -> v = 0%Z.

(** A partial grid that breaks no rule. *)
Definition Consistent (N : nat) (g : Grid) : Prop :=
  hasShape N g = true /\ InRange N g /\ NoClash N g.

(** The generator object is set up for size [N]. *)
Definition SetUp (N : nat) (s : State) : Prop :=
  this_size s = N /\ this_boxSize s = this_boxSize (setSize N s).

(** The position of the cursor [(row, col)] in the order of the fill. *)
Definition cursor (N row col : nat) : nat := row * N + col.

(** What a run of the filler leaves alone: the configuration of the object,
    the stored solution, the oracles and the console. *)
Definition Frame (s s' : State) : Prop :=
  this_size s' = this_size s /\ this_boxSize s' = this_boxSize s /\
  this_solution s' = this_solution s /\ clock s' = clock s /\
  random s' = random s /\ console s' = console s.

(** The result [b] and final state [s'] of [fillGridRecursive row col] run
    from [s]: a failure restores the grid; a success keeps what was filled,
    fills every cell from the cursor on, and breaks no rule. *)
Definition FillPost (N row col : nat) (s : State) (b : bool) (s' : State) : Prop :=
  Frame s s' /\
  (b = false -> this_grid s' = this_grid s) /\
  (b = true ->
     Consistent N (this_grid s') /\
     (forall r c v, cell (this_grid s) r c = Some v -> v <> 0%Z ->
        cell (this_grid s') r c = Some v) /\
     (forall r c, r < N -> c < N -> cursor N row col <= cursor N r c ->
        cell (this_grid s') r c <> Some 0%Z)).

(** The fuel a call at the cursor [(row, col)] needs. *)
Definition fuelNeeded (N row col : nat) : nat := (N - row) * (N + 1) + 1 - col.

(** The grid that [createFallbackGrid] writes for size [N]. *)
Definition fallbackGrid (N : nat) : Grid :=
  this_grid (createFallbackGrid (setSize N (newGenerator frozenClock zeroRandom))).


(** In a goal that runs [Date.now()] from [s]: name the state after the call
    [s1], keeping only that it has the frame and the grid of [s]. *)
Ltac after_dateNow s s1 HF Hg :=
  change (dateNow s) with (clock s (ticks s), (dateNow s).2);
  assert (HF : Frame s (dateNow s).2) by (by repeat split);
  assert (Hg : this_grid (dateNow s).2 = this_grid s) by done;
  generalize dependent (dateNow s).2; intros s1 HF Hg; cbv iota beta zeta.

(** ** The game: conflict check and completion check (class SudokuGame) *)

(** Is the index pair the cell [(row, col)]?  This is the negation of
    [r !== row || c !== col]. *)
Definition isCell (row col : nat) (p : index * index) : bool :=
  match p with
  | (Whole r, Whole c) => (r =? row) && (c =? col)
  | _ => false
  end.

(** The cells of a scanning loop that are read: all but [(row, col)]. *)
Definition others (row col : nat) (ps : list (index * index)) : list (index * index) :=
  List.filter (fun p => negb (isCell row col p)) ps.

(** [hasConflict(row, col, value)] on [this.currentGrid] with
    [this.gridSize]: the row, the column and the box are scanned as in the
    validator, the cell itself left out; the first hit returns true. *)
Definition hasConflict (gridSize : nat) (grid : Grid) (row col : nat) (value : Z)
  : outcome bool :=
  match occursAt grid value (others row col (rowCells gridSize row)) with
  | Throw => Throw
  | Ret true => Ret true
  | Ret false =>
      match occursAt grid value (others row col (colCells gridSize col)) with
      | Throw => Throw
      | Ret true => Ret true
      | Ret false =>
          occursAt grid value
            (others row col
               (if gridSize =? 6 then box6Cells row col
                else sqrtBoxCells gridSize row col))
      end
  end.

(** [isPuzzleComplete()]: false at the first [this.currentGrid[row][col]
    === 0], true when there is none. *)
Definition isPuzzleComplete (gridSize : nat) (grid : Grid) : outcome bool :=
  match occursAt grid 0 (map whole (allCells gridSize)) with
  | Throw => Throw
  | Ret b => Ret (negb b)
  end.

(** ** Executable form of consistency *)

Definition inRangeb (N : nat) (g : Grid) : bool :=
  forallb (fun cells => forallb (fun v => (0 <=? v)%Z && (v <=? Z.of_nat N)%Z) cells) g.

(** Do the cells [p] and [q] hold the same non-zero value? *)
Definition clash (g : Grid) (p q : nat * nat) : bool :=
  match cell g p.1 p.2, cell g q.1 q.2 with
  | Some v, Some w => Z.eqb v w && negb (Z.eqb v 0)
  | _, _ => false
  end.

Definition clashFree (N : nat) (g : Grid) : bool :=
  forallb (fun p => forallb (fun q => bool_decide (q = p) || negb (clash g p q)) (peers N p))
    (allCells N).

(** An [N] by [N] grid with content in [0..N] in which no value other than
    zero occurs twice in a row, a column or a box. *)
Definition consistentb (N : nat) (g : Grid) : bool :=
  hasShape N g && inRangeb N g && clashFree N g.

(** A valid 6x6 grid. *)
Definition sample6 : Grid :=
  [[1; 2; 3; 4; 5; 6]; [4; 5; 6; 1; 2; 3]; [2; 3; 1; 5; 6; 4];
   [5; 6; 4; 2; 3; 1]; [3; 1; 2; 6; 4; 5]; [6; 4; 5; 3; 1; 2]]%Z.

(** A 4x4 puzzle and its only solution. *)
Definition puzzle4 : Grid :=
  [[1; 0; 0; 4]; [0; 4; 1; 0]; [2; 0; 4; 0]; [0; 3; 0; 1]]%Z.

Definition solved4 : Grid :=
  [[1; 2; 3; 4]; [3; 4; 1; 2]; [2; 1; 4; 3]; [4; 3; 2; 1]]%Z.

(** * Properties *)

(** ** Cells *)

Lemma readCell_cell (g : Grid) (r c : nat) (v : Z) :
  readCell g (Whole r) (Whole c) = Cell v <-> cell g r c = Some v.
Proof.
  unfold readCell, cell. destruct (g !! r) as [cells|]; [|split; discriminate].
  destruct (cells !! c); split; congruence.
Qed.

Lemma isEmptyAt_cell (g : Grid) (p : nat * nat) :
  isEmptyAt g p = true <-> cell g p.1 p.2 = Some 0%Z.
Proof.
  unfold isEmptyAt. destruct (readCell g (Whole p.1) (Whole p.2)) as [v| |] eqn:E.
  - apply readCell_cell in E. rewrite E. split.
    + intros H%Z.eqb_eq. by subst.
    + intros [= ->]. reflexivity.
  - split; [discriminate|]. intros H%readCell_cell. congruence.
  - split; [discriminate|]. intros H%readCell_cell. congruence.
Qed.

Lemma length_writeCell (g : Grid) (r c : nat) (v : Z) :
  length (writeCell g r c v) = length g.
Proof. apply length_alter. Qed.

Lemma cell_writeCell_eq (g : Grid) (r c : nat) (v : Z) :
  is_Some (cell g r c) -> cell (writeCell g r c v) r c = Some v.
Proof.
  unfold cell, writeCell. rewrite list_lookup_alter_eq.
  destruct (g !! r) as [cells|]; simpl; [|by intros [? ?]].
  intros [w Hw]. apply list_lookup_insert_eq. by eapply lookup_lt_Some.
Qed.

Lemma cell_writeCell_ne (g : Grid) (r c : nat) (v : Z) (r' c' : nat) :
  (r, c) <> (r', c') -> cell (writeCell g r c v) r' c' = cell g r' c'.
Proof.
  intros Hne. unfold cell, writeCell. destruct (decide (r = r')) as [->|Hr].
  - rewrite list_lookup_alter_eq. destruct (g !! r'); simpl; [|done].
    apply list_lookup_insert_ne. congruence.
  - by rewrite list_lookup_alter_ne.
Qed.

Lemma writeCell_writeCell (g : Grid) (r c : nat) (v w : Z) :
  writeCell (writeCell g r c v) r c w = writeCell g r c w.
Proof.
  unfold writeCell. rewrite list_alter_alter_eq. apply list_alter_ext; [|done].
  intros cells _. simpl. apply list_insert_insert_eq.
Qed.

Lemma writeCell_same (g : Grid) (r c : nat) (v : Z) :
  cell g r c = Some v -> writeCell g r c v = g.
Proof.
  unfold cell, writeCell. intros H. apply list_eq. intros i.
  rewrite list_lookup_alter. case_decide; [subst i|done].
  destruct (g !! r) as [cells|]; [simpl|done]. by rewrite list_insert_id.
Qed.

(** Writing a value and then zero again restores a grid whose cell was zero. *)
Lemma writeCell_undo (g : Grid) (r c : nat) (v : Z) :
  cell g r c = Some 0%Z -> writeCell (writeCell g r c v) r c 0 = g.
Proof. intros H. rewrite writeCell_writeCell. by apply writeCell_same. Qed.

Lemma firstEmpty_Some (g : Grid) (row col : nat) :
  firstEmpty g = Some (row, col) ->
  cell g row col = Some 0%Z /\ row < length g /\ col < length g.
Proof.
  unfold firstEmpty. intros H. apply find_some in H as [Hin He].
  apply isEmptyAt_cell in He. split; [done|].
  unfold allCells in Hin. apply in_flat_map in Hin as (r & Hr & Hin).
  apply in_map_iff in Hin as (c & [= <- <-] & Hc).
  apply in_seq in Hr. apply in_seq in Hc. lia.
Qed.

Lemma firstEmpty_None (g : Grid) :
  (forall r c, cell g r c <> Some 0%Z) -> firstEmpty g = None.
Proof.
  intros H. unfold firstEmpty.
  destruct (find (isEmptyAt g) (allCells (length g))) as [p|] eqn:E; [|done].
  apply find_some in E as [_ He]. apply isEmptyAt_cell in He. by apply H in He.
Qed.

(** ** Solver: what a failed search leaves behind *)

Section TryValues.
Variable rec : Grid -> run Grid bool.
Hypothesis rec_restores : forall g g', rec g = Done false g' -> g' = g.

Lemma tryValues_restores (row col : nat) (nums : list Z) (g g' : Grid) :
  cell g row col = Some 0%Z ->
  tryValues rec row col nums g = Done false g' -> g' = g.
Proof.
  intros Hz. induction nums as [|num rest IH]; simpl.
  - congruence.
  - destruct (isValidForGrid g row col num) as [[|]|]; [|done|done].
    destruct (rec (writeCell g row col num)) as [[|] g1|g1|] eqn:E; try done.
    apply rec_restores in E. subst g1. by rewrite writeCell_undo.
Qed.
End TryValues.

Section TryValuesKeeps.
Variable rec : Grid -> run Grid bool.
Hypothesis rec_restores : forall g g', rec g = Done false g' -> g' = g.
Hypothesis rec_keeps : forall g g', rec g = Done true g' -> agreesWith g g'.

Lemma tryValues_keeps (row col : nat) (nums : list Z) (g g' : Grid) :
  cell g row col = Some 0%Z ->
  tryValues rec row col nums g = Done true g' -> agreesWith g g'.
Proof.
  intros Hz. induction nums as [|num rest IH]; simpl; [done|].
  destruct (isValidForGrid g row col num) as [[|]|]; [|done|done].
  destruct (rec (writeCell g row col num)) as [[|] g1|g1|] eqn:E; try done.
  - intros [= <-]. apply rec_keeps in E. intros r c v Hc Hv. apply E; [|done].
    rewrite cell_writeCell_ne; [done|]. intros [= -> ->]. congruence.
  - apply rec_restores in E. subst g1. by rewrite writeCell_undo.
Qed.
End TryValuesKeeps.

Lemma solvePuzzleFuel_restores (fuel : nat) (g g' : Grid) :
  solvePuzzleFuel fuel g = Done false g' -> g' = g.
Proof.
  revert g g'. induction fuel as [|fuel IH]; intros g g'; simpl; [done|].
  destruct (firstEmpty g) as [[row col]|] eqn:E; [|done].
  apply firstEmpty_Some in E as (Hz & _ & _).
  by apply tryValues_restores.
Qed.

(** A successful search keeps every cell that was filled. *)
Lemma solvePuzzleFuel_keeps (fuel : nat) (g g' : Grid) :
  solvePuzzleFuel fuel g = Done true g' -> agreesWith g g'.
Proof.
  revert g g'. induction fuel as [|fuel IH]; intros g g'; simpl; [done|].
  destruct (firstEmpty g) as [[row col]|] eqn:E.
  - apply firstEmpty_Some in E as (Hz & _ & _).
    by apply (tryValues_keeps _ (solvePuzzleFuel_restores fuel) IH).
  - by intros [= <-] r c v.
Qed.

(** C10. A grid without a zero cell is reported as solved and is returned as
    it is, whatever its cells contain: the filled cells are never checked
    against the Sudoku rules. *)
Theorem solvePuzzle_full_grid (g : Grid) :
  (forall r c, cell g r c <> Some 0%Z) -> solvePuzzle g = Done true g.
Proof.
  intros H. unfold solvePuzzle. simpl. by rewrite firstEmpty_None.
Qed.

Lemma solvePuzzle_full_grid_witness :
  sudokuValid 4 allOnes4 = false /\ solvePuzzle allOnes4 = Done true allOnes4.
Proof.
  split; [reflexivity|]. apply (solvePuzzle_full_grid allOnes4).
  intros r c. do 5 (try destruct r as [|r]); do 5 (try destruct c as [|c]);
    try discriminate; destruct c; discriminate.
Defined.

(** C4. When [solvePuzzle] returns false, the grid is exactly the grid it was
    given: every placement made during the search has been undone. *)
Theorem solvePuzzle_false_restores (g g' : Grid) :
  solvePuzzle g = Done false g' -> g' = g.
Proof. apply solvePuzzleFuel_restores. Qed.

Lemma solvePuzzle_false_restores_witness :
  solvePuzzle stuck4 = Done false stuck4 /\ stuck4 = stuck4.
Proof.
  split; [by vm_compute|].
  apply (solvePuzzle_false_restores stuck4 stuck4). by vm_compute.
Defined.

(** ** Validator *)

Lemma hit_whole (g : Grid) (num : Z) (p : nat * nat) :
  hit g num (whole p) = holds g num p.
Proof.
  unfold hit, holds, whole, readCell, cell. simpl.
  destruct (g !! p.1) as [cells|]; [|done]. by destruct (cells !! p.2).
Qed.

Lemma occursAt_hit (g : Grid) (num : Z) (ps : list (index * index)) :
  Forall (fun p => readCell g p.1 p.2 <> TypeError) ps ->
  occursAt g num ps = Ret (existsb (hit g num) ps).
Proof.
  induction 1 as [|[r c] ps Hp _ IH]; simpl; [done|].
  unfold hit at 1. simpl in *. destruct (readCell g r c) as [v| |]; [|done|done].
  by destruct (Z.eqb v num).
Qed.

Lemma checkPlacement_hit (g : Grid) (num : Z) (rowPs colPs boxPs : list (index * index)) :
  Forall (fun p => readCell g p.1 p.2 <> TypeError) (rowPs ++ colPs ++ boxPs) ->
  checkPlacement g num rowPs colPs boxPs
  = Ret (negb (existsb (hit g num) (rowPs ++ colPs ++ boxPs))).
Proof.
  intros H. apply Forall_app in H as [Hr H]. apply Forall_app in H as [Hc Hb].
  unfold checkPlacement. rewrite !existsb_app, !occursAt_hit by done.
  destruct (existsb (hit g num) rowPs); [done|].
  destruct (existsb (hit g num) colPs); [done|].
  by destruct (existsb (hit g num) boxPs).
Qed.

Lemma window_whole (a b h w : nat) :
  window (Whole a) (Whole b) h w = map whole (windowAt a b h w).
Proof.
  unfold window, windowAt. induction (seq 0 h) as [|i l IH]; [done|].
  cbn [flat_map]. rewrite map_app, <- IH. f_equal. by rewrite map_map.
Qed.

Lemma elem_of_allCells (N r c : nat) : (r, c) ∈ allCells N <-> r < N /\ c < N.
Proof.
  unfold allCells. rewrite list_elem_of_In, in_flat_map. split.
  - intros (r' & Hr & Hin). apply in_map_iff in Hin as (c' & [= <- <-] & Hc).
    apply in_seq in Hr, Hc. lia.
  - intros [Hr Hc]. exists r. split; [apply in_seq; lia|].
    apply in_map_iff. exists c. split; [done|]. apply in_seq. lia.
Qed.

Lemma supported_geometry (N : nat) : supported N -> Geometry N.
Proof. intros [-> | [-> | ->]]; split; compute_done. Qed.

(** For a supported size the three loops scan the peers of the cell. *)
Lemma scanned_peers (N : nat) (p : nat * nat) :
  supported N ->
  rowCells N p.1 ++ colCells N p.2
    ++ (if N =? 6 then box6Cells p.1 p.2 else sqrtBoxCells N p.1 p.2)
  = map whole (peers N p).
Proof.
  intros HN. unfold peers. rewrite !map_app. f_equal; [|f_equal].
  - unfold rowCells, rowUnit. by rewrite map_map.
  - unfold colCells, colUnit. by rewrite map_map.
  - unfold boxAround. rewrite <- window_whole.
    destruct HN as [-> | [-> | ->]]; reflexivity.
Qed.

Lemma hasShape_spec (N : nat) (g : Grid) :
  hasShape N g = true <-> length g = N /\ Forall (fun cells => length cells = N) g.
Proof.
  unfold hasShape. rewrite andb_true_iff, Nat.eqb_eq, forallb_forall, Forall_forall.
  split; intros [H1 H2]; (split; [done|]); intros cells Hin.
  - apply Nat.eqb_eq, H2. by apply list_elem_of_In.
  - apply Nat.eqb_eq, H2. by apply list_elem_of_In.
Qed.

Lemma cell_is_Some (N : nat) (g : Grid) (r c : nat) :
  hasShape N g = true -> (is_Some (cell g r c) <-> r < N /\ c < N).
Proof.
  intros [Hl Hrows]%hasShape_spec. unfold cell. split.
  - destruct (g !! r) as [cells|] eqn:E; [|by intros [? ?]].
    intros Hc. apply lookup_lt_is_Some in Hc.
    assert (length cells = N) as <-.
    { rewrite Forall_forall in Hrows. apply Hrows. by eapply list_elem_of_lookup_2. }
    split; [|done]. rewrite <- Hl. by eapply lookup_lt_Some.
  - intros [Hr Hc]. destruct (lookup_lt_is_Some_2 g r) as [cells E]; [lia|].
    rewrite E. apply lookup_lt_is_Some.
    rewrite Forall_forall in Hrows. rewrite (Hrows cells); [done|].
    by eapply list_elem_of_lookup_2.
Qed.

Lemma hasShape_writeCell (N : nat) (g : Grid) (r c : nat) (v : Z) :
  hasShape N g = true -> hasShape N (writeCell g r c v) = true.
Proof.
  rewrite !hasShape_spec. intros [Hl Hrows]. split; [by rewrite length_writeCell|].
  unfold writeCell. apply (Forall_alter (fun cells : list Z => length cells = N)); [done|].
  intros cells _ Hc. by rewrite length_insert.
Qed.

Lemma peers_no_TypeError (N : nat) (g : Grid) (p : nat * nat) :
  Geometry N -> length g = N -> p ∈ allCells N ->
  Forall (fun q => readCell g q.1 q.2 <> TypeError) (map whole (peers N p)).
Proof.
  intros HG Hl Hp. apply Forall_map, Forall_forall. intros [r c] Hq.
  pose proof (geo_peers_inside N HG) as Hin. rewrite Forall_forall in Hin.
  specialize (Hin p Hp). rewrite Forall_forall in Hin.
  apply Hin, elem_of_allCells in Hq as [Hr _]. simpl.
  destruct (lookup_lt_is_Some_2 g r) as [cells E]; [lia|].
  unfold readCell. rewrite E. by destruct (cells !! c).
Qed.

(** On a grid of a supported size, [isValidForGrid] never throws: it says
    whether [num] is absent from the peers of the cell. *)
Lemma isValidForGrid_peers (N : nat) (g : Grid) (row col : nat) (num : Z) :
  supported N -> length g = N -> (row, col) ∈ allCells N ->
  isValidForGrid g row col num = Ret (negb (existsb (holds g num) (peers N (row, col)))).
Proof.
  intros HN Hl Hp. unfold isValidForGrid. rewrite Hl.
  pose proof (scanned_peers N (row, col) HN) as Hscan. simpl in Hscan.
  rewrite checkPlacement_hit; rewrite Hscan.
  - f_equal. f_equal. clear Hscan. induction (peers N (row, col)) as [|q l IH]; [done|].
    simpl. by rewrite IH, hit_whole.
  - apply peers_no_TypeError; auto using supported_geometry.
Qed.

(** For a supported size the validator of the generator is the validator of
    the solver applied to [this.grid]. *)
Lemma isValid_isValidForGrid (N : nat) (s : State) (row col : nat) (num : Z) :
  supported N -> SetUp N s -> length (this_grid s) = N ->
  isValid s row col num = isValidForGrid (this_grid s) row col num.
Proof.
  intros HN [Hs Hb] Hl. unfold isValid, isValidForGrid. rewrite Hl, Hs, Hb.
  destruct HN as [-> | [-> | ->]]; reflexivity.
Qed.

(** C8. On a 6x6 grid, 4 cannot be placed at (1,4) when the cell (0,3),
    which lies in the same 2x3 box, holds 4; nor when the cell (3,4), which
    lies in another box of the same column, holds 4.  The validator of the
    generator and the validator of the solver agree. *)
Theorem six_by_six_box_and_column (s1 s2 : State) :
  this_size s1 = 6 -> length (this_grid s1) = 6 -> cell (this_grid s1) 0 3 = Some 4%Z ->
  this_size s2 = 6 -> length (this_grid s2) = 6 -> cell (this_grid s2) 3 4 = Some 4%Z ->
  (isValid s1 1 4 4 = Ret false /\ isValidForGrid (this_grid s1) 1 4 4 = Ret false) /\
  (isValid s2 1 4 4 = Ret false /\ isValidForGrid (this_grid s2) 1 4 4 = Ret false).
Proof.
  assert (Hrej : forall s q, this_size s = 6 -> length (this_grid s) = 6 ->
            q ∈ peers 6 (1, 4) -> cell (this_grid s) q.1 q.2 = Some 4%Z ->
            isValid s 1 4 4 = Ret false /\ isValidForGrid (this_grid s) 1 4 4 = Ret false).
  { intros s q Hs Hl Hq Hc.
    assert (Hsame : isValid s 1 4 4 = isValidForGrid (this_grid s) 1 4 4).
    { unfold isValid, isValidForGrid. by rewrite Hs, Hl. }
    rewrite Hsame. cut (isValidForGrid (this_grid s) 1 4 4 = Ret false); [done|].
    rewrite (isValidForGrid_peers 6 (this_grid s) 1 4);
      [|right; by left|done|apply elem_of_allCells; lia].
    f_equal. apply negb_false_iff, existsb_exists.
    exists q. split; [by apply list_elem_of_In|]. unfold holds. by rewrite Hc. }
  intros Hs1 Hl1 Hc1 Hs2 Hl2 Hc2. split.
  - apply (Hrej s1 (0, 3)); [done|done|compute_done|done].
  - apply (Hrej s2 (3, 4)); [done|done|compute_done|done].
Qed.

(** In the first grid neither the row nor the column of (1,4) holds a 4, so
    the box check alone rejects; in the second neither the row nor the box
    does, so the column check alone rejects. *)
Lemma six_by_six_box_and_column_witness :
  existsb (holds boxOnly6 4) (rowUnit 6 1 ++ colUnit 6 4) = false /\
  existsb (holds colOnly6 4) (rowUnit 6 1 ++ boxAround 6 (1, 4)) = false /\
  (isValid (generatorWith boxOnly6) 1 4 4 = Ret false /\
   isValidForGrid (this_grid (generatorWith boxOnly6)) 1 4 4 = Ret false) /\
  (isValid (generatorWith colOnly6) 1 4 4 = Ret false /\
   isValidForGrid (this_grid (generatorWith colOnly6)) 1 4 4 = Ret false).
Proof.
  split; [reflexivity|]. split; [reflexivity|].
  apply (six_by_six_box_and_column (generatorWith boxOnly6) (generatorWith colOnly6));
    reflexivity.
Defined.

(** ** Consistent grids *)

Lemma cell_writeCell (g : Grid) (r c : nat) (v : Z) (r' c' : nat) (w : Z) :
  cell (writeCell g r c v) r' c' = Some w ->
  ((r, c) = (r', c') /\ w = v) \/ ((r, c) <> (r', c') /\ cell g r' c' = Some w).
Proof.
  intros H. destruct (decide ((r, c) = (r', c'))) as [[= <- <-]|Hne].
  - left. split; [done|]. revert H. unfold cell, writeCell.
    rewrite list_lookup_alter_eq. destruct (g !! r) as [cells|]; simpl; [|done].
    intros H. apply list_lookup_insert_Some in H as [(_ & -> & _)|[? _]]; done.
  - right. split; [done|]. by rewrite cell_writeCell_ne in H.
Qed.

Lemma peers_inside (N : nat) (p q : nat * nat) :
  Geometry N -> p ∈ allCells N -> q ∈ peers N p -> q ∈ allCells N.
Proof.
  intros HG Hp Hq. pose proof (geo_peers_inside N HG) as H.
  rewrite Forall_forall in H. specialize (H p Hp). rewrite Forall_forall in H. auto.
Qed.

Lemma peers_sym (N : nat) (p q : nat * nat) :
  Geometry N -> p ∈ allCells N -> q ∈ peers N p -> p ∈ peers N q.
Proof.
  intros HG Hp Hq. pose proof (geo_peers_sym N HG) as H.
  rewrite Forall_forall in H. specialize (H p Hp). rewrite Forall_forall in H. auto.
Qed.

Lemma holds_absent (g : Grid) (num : Z) (ps : list (nat * nat)) (q : nat * nat) :
  existsb (holds g num) ps = false -> q ∈ ps -> cell g q.1 q.2 <> Some num.
Proof.
  intros He Hq Hc. apply not_true_iff_false in He. apply He, existsb_exists.
  exists q. split; [by apply list_elem_of_In|]. unfold holds. rewrite Hc. apply Z.eqb_refl.
Qed.

(** Placing a value that the validator accepts keeps a grid consistent. *)
Lemma place_consistent (N : nat) (g : Grid) (p : nat * nat) (num : Z) :
  Geometry N -> Consistent N g -> p ∈ allCells N -> (0 <= num <= Z.of_nat N)%Z ->
  existsb (holds g num) (peers N p) = false ->
  Consistent N (writeCell g p.1 p.2 num).
Proof.
  intros HG (Hsh & Hrg & Hcl) Hp Hnum Habs. split; [|split].
  - by apply hasShape_writeCell.
  - intros r c v Hc. apply cell_writeCell in Hc as [[_ ->]|[_ Hc]]; [done|eauto].
  - intros a b v Ha Hb Hne Hca Hcb.
    apply cell_writeCell in Hca as [[Hpa ->]|[Hpa Hca]];
      apply cell_writeCell in Hcb as [[Hpb Hv]|[Hpb Hcb]].
    + destruct a, b, p. simpl in *. congruence.
    + exfalso. assert (a = p) as -> by (destruct a, p; simpl in *; congruence).
      by apply (holds_absent g num (peers N p) b).
    + exfalso. subst v. assert (b = p) as -> by (destruct b, p; simpl in *; congruence).
      apply (holds_absent g num (peers N p) a); [done| |done].
      by apply (peers_sym N a p).
    + by apply (Hcl a b).
Qed.

(** Emptying a cell keeps a grid consistent. *)
Lemma erase_consistent (N : nat) (g : Grid) (r c : nat) :
  Consistent N g -> Consistent N (writeCell g r c 0).
Proof.
  intros (Hsh & Hrg & Hcl). split; [|split].
  - by apply hasShape_writeCell.
  - intros r' c' v Hc. apply cell_writeCell in Hc as [[_ ->]|[_ Hc]]; [lia|eauto].
  - intros a b v Ha Hb Hne Hca Hcb.
    apply cell_writeCell in Hca as [[_ ->]|[_ Hca]]; [done|].
    apply cell_writeCell in Hcb as [[_ ->]|[_ Hcb]]; [done|].
    by apply (Hcl a b).
Qed.

(** *** Counting: a unit of a consistent full grid holds each value once *)

Lemma occurrences_zero (v : Z) (vs : list (option Z)) :
  Some v ∉ vs -> occurrences v vs = 0.
Proof.
  unfold occurrences. induction vs as [|o vs IH]; [done|].
  intros H. apply not_elem_of_cons in H as [Hne H]. simpl.
  destruct o as [w|]; [|by apply IH].
  destruct (Z.eqb_spec w v) as [->|_]; [done|by apply IH].
Qed.

Lemma occurrences_once (v : Z) (vs : list (option Z)) :
  NoDup vs -> Some v ∈ vs -> occurrences v vs = 1.
Proof.
  induction 1 as [|o vs Hnin Hnd IH]; [by intros ?%elem_of_nil|].
  intros Hin. apply elem_of_cons in Hin as [<-|Hin].
  - unfold occurrences. simpl. rewrite Z.eqb_refl. simpl. f_equal.
    by apply occurrences_zero.
  - unfold occurrences in *. simpl. destruct o as [w|]; [|by apply IH].
    destruct (Z.eqb_spec w v) as [->|_]; [done|by apply IH].
Qed.

Lemma occurrences_pos (v : Z) (vs : list (option Z)) :
  occurrences v vs <> 0 -> Some v ∈ vs.
Proof.
  unfold occurrences. induction vs as [|o vs IH]; [done|]. simpl.
  destruct o as [w|]; [|intros; right; by apply IH].
  destruct (Z.eqb_spec w v) as [->|_]; [intros; by left|intros; right; by apply IH].
Qed.

Lemma elem_of_candidates (N : nat) (v : Z) :
  v ∈ candidates N <-> (1 <= v <= Z.of_nat N)%Z.
Proof.
  unfold candidates. rewrite list_elem_of_In, in_map_iff. split.
  - intros (n & <- & Hn). apply in_seq in Hn. lia.
  - intros H. exists (Z.to_nat v). split; [lia|]. apply in_seq. lia.
Qed.

Lemma NoDup_candidates (N : nat) : NoDup (map Some (candidates N)).
Proof.
  unfold candidates. rewrite map_map.
  apply (NoDup_fmap_2_strong (fun n => Some (Z.of_nat n))).
  - intros a b _ _ [= H]. lia.
  - apply NoDup_ListNoDup, seq_NoDup.
Qed.

Lemma length_candidates (N : nat) : length (map Some (candidates N)) = N.
Proof. unfold candidates. by rewrite !length_map, length_seq. Qed.

(** [N] distinct values among [1..N] are each of [1..N], once. *)
Lemma eachOnce_intro (N : nat) (vs : list (option Z)) :
  length vs = N -> NoDup vs ->
  (forall o, o ∈ vs -> exists v, o = Some v /\ (1 <= v <= Z.of_nat N)%Z) ->
  eachOnce N vs = true.
Proof.
  intros Hlen Hnd Hrange. apply forallb_forall. intros v Hv. apply Nat.eqb_eq.
  apply occurrences_once; [done|]. apply list_elem_of_In.
  apply (NoDup_length_incl (l := vs) (l' := map Some (candidates N))).
  - by apply NoDup_ListNoDup.
  - by rewrite length_candidates, Hlen.
  - intros o Ho. apply list_elem_of_In in Ho. destruct (Hrange o Ho) as (w & -> & Hw).
    apply in_map, list_elem_of_In. by apply elem_of_candidates.
  - by apply in_map.
Qed.

(** Conversely, [N] values holding each of [1..N] once are distinct and
    within [1..N]. *)
Lemma eachOnce_elim (N : nat) (vs : list (option Z)) :
  length vs = N -> eachOnce N vs = true ->
  NoDup vs /\ forall o, o ∈ vs -> exists v, o = Some v /\ (1 <= v <= Z.of_nat N)%Z.
Proof.
  intros Hlen Hall.
  assert (Hperm : Permutation (map Some (candidates N)) vs).
  { apply NoDup_Permutation_bis.
    - apply NoDup_ListNoDup, NoDup_candidates.
    - by rewrite length_candidates, Hlen.
    - intros o Ho. apply in_map_iff in Ho as (v & <- & Hv).
      apply list_elem_of_In, occurrences_pos.
      unfold eachOnce in Hall. rewrite forallb_forall in Hall.
      specialize (Hall v Hv). apply Nat.eqb_eq in Hall. lia. }
  split.
  - rewrite <- Hperm. apply NoDup_candidates.
  - intros o Ho. rewrite <- Hperm in Ho. apply list_elem_of_In, in_map_iff in Ho.
    destruct Ho as (v & <- & Hv). exists v. split; [done|].
    by apply elem_of_candidates, list_elem_of_In.
Qed.

Lemma length_valuesAt (g : Grid) (ps : list (nat * nat)) :
  length (valuesAt g ps) = length ps.
Proof. apply length_map. Qed.

Lemma complete_spec (g : Grid) :
  complete g = true <-> forall r c, cell g r c <> Some 0%Z.
Proof.
  unfold complete. rewrite forallb_forall. split.
  - intros H r c Hc. unfold cell in Hc. destruct (g !! r) as [cells|] eqn:E; [|done].
    specialize (H cells). rewrite forallb_forall in H.
    assert (Hin : In cells g) by (apply list_elem_of_In; by eapply list_elem_of_lookup_2).
    specialize (H Hin 0%Z). simpl in H.
    assert (Hz : In 0%Z cells) by (apply list_elem_of_In; by eapply list_elem_of_lookup_2).
    by apply H in Hz.
  - intros H cells Hin. apply forallb_forall. intros v Hv.
    apply list_elem_of_In, list_elem_of_lookup in Hin as [r Hr].
    apply list_elem_of_In, list_elem_of_lookup in Hv as [c Hc].
    apply negb_true_iff, Z.eqb_neq. intros ->. apply (H r c). unfold cell. by rewrite Hr.
Qed.

Lemma unit_facts (N : nat) (u : list (nat * nat)) :
  Geometry N -> u ∈ units N ->
  length u = N /\ NoDup u /\ (forall p, p ∈ u -> p ∈ allCells N) /\
  (forall p q, p ∈ u -> q ∈ u -> q ∈ peers N p).
Proof.
  intros HG Hu. pose proof (geo_units_shape N HG) as H1.
  pose proof (geo_units_peers N HG) as H2.
  rewrite Forall_forall in H1, H2. destruct (H1 u Hu) as (Hl & Hnd & Hin).
  specialize (H2 u Hu). rewrite Forall_forall in Hin, H2.
  repeat split; [done..|]. intros p q Hp Hq. specialize (H2 p Hp).
  rewrite Forall_forall in H2. auto.
Qed.

(** A consistent grid without a zero satisfies the validity invariant. *)
Lemma consistent_full_valid (N : nat) (g : Grid) :
  Geometry N -> Consistent N g -> (forall r c, cell g r c <> Some 0%Z) ->
  sudokuValid N g = true.
Proof.
  intros HG (Hsh & Hrg & Hcl) Hfull. unfold sudokuValid. rewrite Hsh. simpl.
  apply forallb_forall. intros u Hu. apply list_elem_of_In in Hu.
  destruct (unit_facts N u HG Hu) as (Hl & Hnd & Hin & Hpeers).
  apply eachOnce_intro.
  - by rewrite length_valuesAt.
  - unfold valuesAt. apply (NoDup_fmap_2_strong (fun p => cell g p.1 p.2)); [|done].
    intros p q Hp Hq Heq. destruct (decide (q = p)) as [->|Hne]; [done|exfalso].
    destruct (proj2 (cell_is_Some N g p.1 p.2 Hsh)) as [v Hv].
    { apply elem_of_allCells. destruct p. by apply Hin. }
    apply (Hfull p.1 p.2). rewrite Hv. f_equal.
    apply (Hcl p q v); [by apply Hin|by apply Hpeers|done|done|congruence].
  - intros o Ho. apply list_elem_of_In, in_map_iff in Ho as (p & <- & Hp).
    apply list_elem_of_In in Hp.
    destruct (proj2 (cell_is_Some N g p.1 p.2 Hsh)) as [v Hv].
    { apply elem_of_allCells. destruct p. by apply Hin. }
    exists v. split; [done|]. pose proof (Hrg _ _ _ Hv).
    assert (v <> 0%Z) by (intros ->; by apply (Hfull p.1 p.2)). lia.
Qed.

Lemma NoDup_map_inj {A B} (f : A -> B) (l : list A) (x y : A) :
  NoDup (map f l) -> x ∈ l -> y ∈ l -> f x = f y -> x = y.
Proof.
  induction l as [|a l IH]; simpl; [by intros _ ?%elem_of_nil|].
  intros Hnd Hx Hy Heq. apply NoDup_cons in Hnd as [Hnin Hnd].
  apply elem_of_cons in Hx as [->|Hx]; apply elem_of_cons in Hy as [->|Hy]; [done| | |by apply IH].
  - exfalso. apply Hnin. rewrite Heq. apply list_elem_of_In, in_map. by apply list_elem_of_In.
  - exfalso. apply Hnin. rewrite <- Heq. apply list_elem_of_In, in_map. by apply list_elem_of_In.
Qed.

(** A grid that satisfies the validity invariant is consistent and has no
    zero. *)
Lemma valid_consistent_full (N : nat) (g : Grid) :
  Geometry N -> sudokuValid N g = true ->
  Consistent N g /\ forall r c, cell g r c <> Some 0%Z.
Proof.
  intros HG Hv. unfold sudokuValid in Hv. apply andb_true_iff in Hv as [Hsh Hunits].
  rewrite forallb_forall in Hunits.
  assert (Hunit : forall u, u ∈ units N ->
            NoDup (valuesAt g u) /\
            forall o, o ∈ valuesAt g u -> exists v, o = Some v /\ (1 <= v <= Z.of_nat N)%Z).
  { intros u Hu. apply eachOnce_elim.
    - rewrite length_valuesAt. by apply (unit_facts N u HG Hu).
    - apply Hunits. by apply list_elem_of_In. }
  assert (Hcover : forall p q, p ∈ allCells N -> q ∈ peers N p ->
            exists u, u ∈ units N /\ p ∈ u /\ q ∈ u).
  { intros p q Hp Hq. pose proof (geo_peers_units N HG) as H.
    rewrite Forall_forall in H. specialize (H p Hp). rewrite Forall_forall in H.
    specialize (H q Hq). apply Exists_exists in H as (u & Hu & Hpu & Hqu). eauto. }
  assert (Hself : forall p, p ∈ allCells N -> p ∈ peers N p).
  { pose proof (geo_self N HG) as H. by rewrite Forall_forall in H. }
  assert (Hval : forall r c v, cell g r c = Some v -> (1 <= v <= Z.of_nat N)%Z).
  { intros r c v Hc.
    assert (Hp : (r, c) ∈ allCells N).
    { apply elem_of_allCells, (cell_is_Some N g r c Hsh). by exists v. }
    destruct (Hcover (r, c) (r, c) Hp (Hself _ Hp)) as (u & Hu & Hpu & _).
    destruct (Hunit u Hu) as [_ Hr]. destruct (Hr (Some v)) as (w & [= <-] & Hw); [|done].
    rewrite <- Hc. unfold valuesAt. apply list_elem_of_In.
    apply (in_map (fun p => cell g p.1 p.2) u (r, c)). by apply list_elem_of_In. }
  split; [split; [done|split]|].
  - intros r c v Hc. apply Hval in Hc. lia.
  - intros p q v Hp Hq Hne Hcp Hcq. exfalso. apply Hne.
    destruct (Hcover p q Hp Hq) as (u & Hu & Hpu & Hqu).
    destruct (Hunit u Hu) as [Hnd _]. symmetry.
    apply (NoDup_map_inj (fun p => cell g p.1 p.2) u p q); [done..|congruence].
  - intros r c Hc. apply Hval in Hc. lia.
Qed.

(** ** Solver: termination *)

Lemma zeros_row_insert (cells : list Z) (c : nat) (w v : Z) :
  cells !! c = Some w ->
  zerosIn (<[c := v]> cells) + (if decide (w = 0%Z) then 1 else 0)
  = zerosIn cells + (if decide (v = 0%Z) then 1 else 0).
Proof.
  unfold zerosIn. revert c. induction cells as [|x cells IH]; intros [|c] H; try done; simpl in *.
  - injection H as ->. rewrite !filter_cons. repeat case_decide; simpl; lia.
  - specialize (IH c H). rewrite !filter_cons. destruct (decide (x = 0%Z)); simpl; lia.
Qed.

Lemma zeros_writeCell (g : Grid) (r c : nat) (w v : Z) :
  cell g r c = Some w ->
  zeros (writeCell g r c v) + (if decide (w = 0%Z) then 1 else 0)
  = zeros g + (if decide (v = 0%Z) then 1 else 0).
Proof.
  unfold zeros, cell, writeCell. revert r.
  induction g as [|cells g IH]; intros [|r] H; try done.
  - change (cells !! c = Some w) in H.
    change (zerosIn (<[c:=v]> cells) + list_sum (map zerosIn g)
              + (if decide (w = 0%Z) then 1 else 0)
            = zerosIn cells + list_sum (map zerosIn g)
              + (if decide (v = 0%Z) then 1 else 0)).
    pose proof (zeros_row_insert cells c w v H) as E.
    destruct (decide (w = 0%Z)), (decide (v = 0%Z)); lia.
  - specialize (IH r H).
    change (zerosIn cells
              + list_sum (map zerosIn (alter (fun cells : list Z => <[c:=v]> cells) r g))
              + (if decide (w = 0%Z) then 1 else 0)
            = zerosIn cells + list_sum (map zerosIn g)
              + (if decide (v = 0%Z) then 1 else 0)).
    destruct (decide (w = 0%Z)), (decide (v = 0%Z)); lia.
Qed.

Lemma zeros_fill (g : Grid) (r c : nat) (v : Z) :
  cell g r c = Some 0%Z -> v <> 0%Z -> zeros g = S (zeros (writeCell g r c v)).
Proof.
  intros H Hv. pose proof (zeros_writeCell g r c 0 v H) as E.
  rewrite decide_True in E by done. rewrite decide_False in E by done. lia.
Qed.

Lemma candidates_nonzero (N : nat) (v : Z) : v ∈ candidates N -> v <> 0%Z.
Proof. intros H%elem_of_candidates. lia. Qed.

Section TryValuesFuel.
Variable rec : Grid -> run Grid bool.
Variable bound : nat.
Hypothesis rec_restores : forall g g', rec g = Done false g' -> g' = g.
Hypothesis rec_fuel : forall g, zeros g < bound -> rec g <> OutOfFuel.

Lemma tryValues_fuel (row col : nat) (nums : list Z) (g : Grid) :
  cell g row col = Some 0%Z -> zeros g <= bound ->
  (forall v, v ∈ nums -> v <> 0%Z) ->
  tryValues rec row col nums g <> OutOfFuel.
Proof.
  intros Hz Hb. induction nums as [|num rest IH]; intros Hnz; simpl; [done|].
  assert (Hrest : forall v, v ∈ rest -> v <> 0%Z) by (intros; apply Hnz; by right).
  destruct (isValidForGrid g row col num) as [[|]|]; [|by apply IH|done].
  assert (Hnum : num <> 0%Z) by (apply Hnz; by left).
  pose proof (zeros_fill g row col num Hz Hnum) as Hzeros.
  destruct (rec (writeCell g row col num)) as [[|] g1|g1|] eqn:E; try done.
  - apply rec_restores in E. subst g1. rewrite writeCell_undo by done. by apply IH.
  - exfalso. apply (rec_fuel (writeCell g row col num)); [lia|done].
Qed.
End TryValuesFuel.

Lemma solvePuzzleFuel_enough (fuel : nat) (g : Grid) :
  zeros g < fuel -> solvePuzzleFuel fuel g <> OutOfFuel.
Proof.
  revert g. induction fuel as [|fuel IH]; intros g Hz; [lia|]. simpl.
  destruct (firstEmpty g) as [[row col]|] eqn:E; [|done].
  apply firstEmpty_Some in E as (Hc & _ & _).
  apply (tryValues_fuel (solvePuzzleFuel fuel) fuel (solvePuzzleFuel_restores fuel) IH);
    [done|lia|]. intros v. apply candidates_nonzero.
Qed.

(** The solver always ends, for every grid: it returns or it throws. *)
Lemma solvePuzzle_total (g : Grid) : solvePuzzle g <> OutOfFuel.
Proof. apply solvePuzzleFuel_enough. lia. Qed.

(** ** Solver: on grids of a supported size *)

Lemma firstEmpty_None_full (N : nat) (g : Grid) :
  hasShape N g = true -> firstEmpty g = None -> forall r c, cell g r c <> Some 0%Z.
Proof.
  intros Hsh Hnone r c Hc. unfold firstEmpty in Hnone.
  assert (Hin : In (r, c) (allCells (length g))).
  { apply list_elem_of_In, elem_of_allCells.
    apply hasShape_spec in Hsh as Hl. destruct Hl as [-> _].
    apply (cell_is_Some N g r c Hsh). by exists 0%Z. }
  pose proof (find_none _ _ Hnone (r, c) Hin) as Hf.
  apply not_true_iff_false in Hf. apply Hf. by apply isEmptyAt_cell.
Qed.

Section Supported.
Variable N : nat.
Hypothesis HN : supported N.

Section Loop.
Variable rec : Grid -> run Grid bool.
Variables row col : nat.
Hypothesis Hp : (row, col) ∈ allCells N.
Hypothesis rec_restores : forall g g', rec g = Done false g' -> g' = g.

(** The loop returns when the recursive calls do. *)
Lemma tryValues_returns (nums : list Z) (g : Grid) :
  (forall g1, hasShape N g1 = true -> zeros g1 < zeros g ->
     exists b g', rec g1 = Done b g') ->
  hasShape N g = true -> cell g row col = Some 0%Z ->
  (forall v, v ∈ nums -> v <> 0%Z) ->
  exists b g', tryValues rec row col nums g = Done b g'.
Proof.
  intros Hrec Hsh Hz. induction nums as [|num rest IH]; intros Hnz; simpl; [eauto|].
  assert (Hrest : forall v, v ∈ rest -> v <> 0%Z) by (intros; apply Hnz; by right).
  rewrite (isValidForGrid_peers N g row col num HN); [|by apply hasShape_spec in Hsh as [? _]|done].
  destruct (negb _); [|by apply IH].
  assert (Hnum : num <> 0%Z) by (apply Hnz; by left).
  destruct (Hrec (writeCell g row col num)) as ([|] & g1 & E).
  - by apply hasShape_writeCell.
  - pose proof (zeros_fill g row col num Hz Hnum). lia.
  - rewrite E. eauto.
  - rewrite E. apply rec_restores in E. subst g1.
    rewrite writeCell_undo by done. by apply IH.
Qed.

(** A successful loop ends in a consistent grid without zeros when the
    recursive calls do. *)
Lemma tryValues_sound (nums : list Z) (g g' : Grid) :
  (forall g1 g2, Consistent N g1 -> rec g1 = Done true g2 ->
     Consistent N g2 /\ forall r c, cell g2 r c <> Some 0%Z) ->
  Consistent N g -> cell g row col = Some 0%Z ->
  (forall v, v ∈ nums -> (1 <= v <= Z.of_nat N)%Z) ->
  tryValues rec row col nums g = Done true g' ->
  Consistent N g' /\ forall r c, cell g' r c <> Some 0%Z.
Proof.
  intros Hrec Hcons Hz. induction nums as [|num rest IH]; intros Hrg; simpl; [done|].
  assert (Hrest : forall v, v ∈ rest -> (1 <= v <= Z.of_nat N)%Z)
    by (intros; apply Hrg; by right).
  rewrite (isValidForGrid_peers N g row col num HN);
    [|by destruct Hcons as [[? _]%hasShape_spec _]|done].
  destruct (existsb (holds g num) (peers N (row, col))) eqn:Habs; simpl; [by apply IH|].
  destruct (rec (writeCell g row col num)) as [[|] g1|g1|] eqn:E; try done.
  - intros [= <-]. apply (Hrec _ _ (place_consistent N g (row, col) num
      (supported_geometry N HN) Hcons Hp ltac:(specialize (Hrg num ltac:(by left)); lia) Habs) E).
  - apply rec_restores in E. subst g1. rewrite writeCell_undo by done. by apply IH.
Qed.

(** The loop succeeds when a solution extends the grid and the recursive
    calls succeed on such grids. *)
Lemma tryValues_complete (nums : list Z) (g sol : Grid) (v : Z) :
  (forall g1, hasShape N g1 = true -> zeros g1 < zeros g ->
     exists b g', rec g1 = Done b g') ->
  (forall g1, hasShape N g1 = true -> zeros g1 < zeros g -> agreesWith g1 sol ->
     exists g', rec g1 = Done true g') ->
  Consistent N sol -> (forall r c, cell sol r c <> Some 0%Z) ->
  hasShape N g = true -> agreesWith g sol ->
  cell g row col = Some 0%Z -> cell sol row col = Some v ->
  v ∈ nums -> (forall w, w ∈ nums -> w <> 0%Z) ->
  exists g', tryValues rec row col nums g = Done true g'.
Proof.
  intros Hret Hrec Hsol Hfull Hsh Hagree Hz Hv.
  assert (Hplace : existsb (holds g v) (peers N (row, col)) = false).
  { apply not_true_iff_false. intros He. apply existsb_exists in He as (q & Hq & Hh).
    apply list_elem_of_In in Hq. unfold holds in Hh.
    destruct (cell g q.1 q.2) as [w|] eqn:Hcq; [|done]. apply Z.eqb_eq in Hh. subst w.
    assert (Hv0 : v <> 0%Z) by (intros ->; by apply (Hfull row col)).
    destruct Hsol as (_ & _ & Hcl). apply Hv0.
    apply (Hcl (row, col) q v); [done|done| |done|by apply Hagree].
    intros ->. simpl in Hcq. congruence. }
  induction nums as [|num rest IH]; intros Hin Hnz; simpl; [by apply elem_of_nil in Hin|].
  assert (Hrest : forall w, w ∈ rest -> w <> 0%Z) by (intros; apply Hnz; by right).
  assert (Hnum : num <> 0%Z) by (apply Hnz; by left).
  pose proof (zeros_fill g row col num Hz Hnum) as Hzeros.
  rewrite (isValidForGrid_peers N g row col num HN);
    [|by apply hasShape_spec in Hsh as [? _]|done].
  destruct (existsb (holds g num) (peers N (row, col))) eqn:Habs; simpl.
  - apply IH; [|done]. apply elem_of_cons in Hin as [->|Hin]; [congruence|done].
  - destruct (decide (num = v)) as [->|Hne].
    + destruct (Hrec (writeCell g row col v)) as (g' & E).
      * by apply hasShape_writeCell.
      * lia.
      * intros r c w Hc Hw. apply cell_writeCell in Hc as [[[= <- <-] ->]|[_ Hc]]; [done|].
        by apply Hagree.
      * rewrite E. eauto.
    + destruct (Hret (writeCell g row col num)) as ([|] & g1 & E).
      * by apply hasShape_writeCell.
      * lia.
      * rewrite E. eauto.
      * rewrite E. apply rec_restores in E. subst g1. rewrite writeCell_undo by done.
        apply IH; [|done]. apply elem_of_cons in Hin as [->|Hin]; [congruence|done].
Qed.
End Loop.

Lemma candidates_range (v : Z) : v ∈ candidates N -> (1 <= v <= Z.of_nat N)%Z.
Proof. apply elem_of_candidates. Qed.

Lemma firstEmpty_inside (g : Grid) (row col : nat) :
  hasShape N g = true -> firstEmpty g = Some (row, col) ->
  (row, col) ∈ allCells N /\ cell g row col = Some 0%Z.
Proof.
  intros [Hl _]%hasShape_spec (Hc & Hr & Hcol)%firstEmpty_Some.
  split; [|done]. apply elem_of_allCells. lia.
Qed.

(** On a grid of a supported size the solver returns true or false. *)
Lemma solvePuzzleFuel_returns (fuel : nat) (g : Grid) :
  hasShape N g = true -> zeros g < fuel ->
  exists b g', solvePuzzleFuel fuel g = Done b g'.
Proof.
  revert g. induction fuel as [|fuel IH]; intros g Hsh Hz; [lia|]. simpl.
  destruct (firstEmpty g) as [[row col]|] eqn:E; [|eauto].
  apply firstEmpty_inside in E as [Hp Hc]; [|done].
  apply hasShape_spec in Hsh as Hl. destruct Hl as [-> _].
  apply (tryValues_returns _ row col Hp (solvePuzzleFuel_restores fuel)); [|done|done|].
  - intros g1 Hsh1 Hz1. apply IH; [done|lia].
  - intros v. apply candidates_nonzero.
Qed.

(** When the solver returns true, a consistent grid has become a grid that
    satisfies the validity invariant. *)
Lemma solvePuzzleFuel_sound (fuel : nat) (g g' : Grid) :
  Consistent N g -> solvePuzzleFuel fuel g = Done true g' ->
  Consistent N g' /\ forall r c, cell g' r c <> Some 0%Z.
Proof.
  revert g g'. induction fuel as [|fuel IH]; intros g g' Hcons; [done|]. simpl.
  destruct Hcons as (Hsh & Hrest).
  destruct (firstEmpty g) as [[row col]|] eqn:E.
  - apply firstEmpty_inside in E as [Hp Hc]; [|done].
    apply hasShape_spec in Hsh as Hl. destruct Hl as [-> _].
    apply (tryValues_sound _ row col Hp (solvePuzzleFuel_restores fuel));
      [apply IH|by split|done|apply candidates_range].
  - intros [= <-]. split; [by split|]. by apply (firstEmpty_None_full N).
Qed.

(** The search is exhaustive: when some solution extends the grid, the
    solver returns true. *)
Lemma solvePuzzleFuel_complete (fuel : nat) (g sol : Grid) :
  hasShape N g = true -> zeros g < fuel ->
  Consistent N sol -> (forall r c, cell sol r c <> Some 0%Z) -> agreesWith g sol ->
  exists g', solvePuzzleFuel fuel g = Done true g'.
Proof.
  revert g. induction fuel as [|fuel IH]; intros g Hsh Hz Hsol Hfull Hagree; [lia|]. simpl.
  destruct (firstEmpty g) as [[row col]|] eqn:E; [|eauto].
  apply firstEmpty_inside in E as [Hp Hc]; [|done].
  destruct (proj2 (cell_is_Some N sol row col (proj1 Hsol))) as [v Hv].
  { by apply elem_of_allCells. }
  apply hasShape_spec in Hsh as Hl. destruct Hl as [Hl _]. rewrite Hl.
  apply (tryValues_complete _ row col Hp (solvePuzzleFuel_restores fuel)
           (candidates N) g sol v); try done.
  - intros g1 Hsh1 Hz1. apply solvePuzzleFuel_returns; [done|lia].
  - intros g1 Hsh1 Hz1 Hag1. apply IH; [done|lia|done..].
  - apply elem_of_candidates. destruct Hsol as (_ & Hrg & _).
    pose proof (Hrg _ _ _ Hv). assert (v <> 0%Z) by (intros ->; by apply (Hfull row col)). lia.
  - intros w. apply candidates_nonzero.
Qed.

(** The solver on a grid carved from a valid grid: it returns true, and the
    final grid satisfies the validity invariant and extends the grid it was
    given. *)
Lemma solvePuzzle_of_carved (g sol : Grid) :
  hasShape N g = true -> sudokuValid N sol = true -> agreesWith g sol ->
  exists g', solvePuzzle g = Done true g' /\ sudokuValid N g' = true
             /\ complete g' = true /\ agreesWith g g'.
Proof.
  intros Hsh Hvalid Hagree.
  pose proof (supported_geometry N HN) as HG.
  destruct (valid_consistent_full N sol HG Hvalid) as [Hsol Hfull].
  destruct (solvePuzzleFuel_complete (S (zeros g)) g sol) as (g' & E); try done; [lia|].
  exists g'. split; [done|].
  assert (Hcons : Consistent N g).
  { split; [done|]. destruct Hsol as (_ & Hrg & Hcl). split.
    - intros r c v Hc. destruct (decide (v = 0%Z)) as [->|Hv]; [lia|].
      apply (Hrg r c). by apply Hagree.
    - intros p q v Hp Hq Hne Hcp Hcq. destruct (decide (v = 0%Z)) as [->|Hv]; [done|].
      apply (Hcl p q v); auto. }
  destruct (solvePuzzleFuel_sound _ _ _ Hcons E) as [Hc' Hf'].
  split; [by apply consistent_full_valid|]. split; [by apply complete_spec|].
  by apply solvePuzzleFuel_keeps in E.
Qed.
End Supported.

(** ** shuffleArray *)

Lemma floorScale_lt (u : unitFrac) (k : nat) : 0 < k -> floorScale u k < k.
Proof.
  intros Hk. unfold floorScale. apply Nat.Div0.div_lt_upper_bound. nia.
Qed.

Lemma swap_lookup {A} (l : list A) (i j n : nat) :
  i < length l -> j < length l ->
  swap l i j !! n = l !! (if decide (n = i) then j else if decide (n = j) then i else n).
Proof.
  intros Hi Hj. unfold swap.
  destruct (lookup_lt_is_Some_2 l i Hi) as [x Hx].
  destruct (lookup_lt_is_Some_2 l j Hj) as [y Hy]. rewrite Hx, Hy.
  rewrite list_lookup_insert, length_insert.
  destruct (decide (n = j)) as [->|Hnj].
  - rewrite decide_True by done. destruct (decide (j = i)) as [->|]; congruence.
  - rewrite decide_False by (intros [? _]; congruence).
    rewrite list_lookup_insert. destruct (decide (n = i)) as [->|Hni].
    + by rewrite decide_True.
    + rewrite decide_False; [done|]. intros [? _]. congruence.
Qed.

Lemma swap_Permutation {A} (l : list A) (i j : nat) :
  i < length l -> j < length l -> swap l i j ≡ₚ l.
Proof.
  intros Hi Hj. apply Permutation_inj. split.
  - unfold swap. destruct (l !! i), (l !! j); by rewrite ?length_insert.
  - exists (fun n => if decide (n = i) then j else if decide (n = j) then i else n).
    split; [|intros n; by apply swap_lookup].
    intros a b. repeat case_decide; congruence.
Qed.

Lemma Frame_refl (s : State) : Frame s s.
Proof. by repeat split. Qed.

Lemma Frame_trans (s1 s2 s3 : State) : Frame s1 s2 -> Frame s2 s3 -> Frame s1 s3.
Proof.
  unfold Frame. intros (?&?&?&?&?&?) (?&?&?&?&?&?). repeat split; congruence.
Qed.

Lemma shuffleLoop_spec {A} (i : nat) (l : list A) (s : State) :
  i < length l ->
  (shuffleLoop i l s).1 ≡ₚ l /\ Frame s (shuffleLoop i l s).2 /\
  this_grid (shuffleLoop i l s).2 = this_grid s /\
  ticks (shuffleLoop i l s).2 = ticks s.
Proof.
  revert l s. induction i as [|i IH]; intros l s Hi; simpl.
  - split; [done|]. split; [apply Frame_refl|done].
  - assert (Hj : floorScale (random s (draws s)) (S i + 1) < length l).
    { pose proof (floorScale_lt (random s (draws s)) (S i + 1)). lia. }
    pose proof (swap_Permutation l (S i) _ Hi Hj) as Hperm.
    match goal with |- context [shuffleLoop i ?l' ?s'] =>
      destruct (IH l' s') as (H1 & H2 & H3 & H4) end.
    { rewrite Hperm. lia. }
    split; [by rewrite H1|]. split; [|done].
    eapply Frame_trans; [|exact H2]. by repeat split.
Qed.

Lemma shuffleArray_spec {A} (array : list A) (s : State) :
  (shuffleArray array s).1 ≡ₚ array /\ Frame s (shuffleArray array s).2 /\
  this_grid (shuffleArray array s).2 = this_grid s /\
  ticks (shuffleArray array s).2 = ticks s.
Proof.
  unfold shuffleArray. destruct array as [|x array].
  - simpl. split; [done|]. split; [apply Frame_refl|done].
  - apply shuffleLoop_spec. simpl. lia.
Qed.


(** ** Grid filler *)

Lemma SetUp_Frame (N : nat) (s s' : State) : Frame s s' -> SetUp N s -> SetUp N s'.
Proof. intros (Hs & Hb & _) [H1 H2]. split; simpl in *; congruence. Qed.

Lemma oneToSize_range (N : nat) (v : Z) :
  v ∈ oneToSize N -> (1 <= v <= Z.of_nat N)%Z.
Proof.
  unfold oneToSize. rewrite list_elem_of_In, in_map_iff.
  intros (i & <- & Hi). apply in_seq in Hi. lia.
Qed.

Lemma cursor_next (N row col r c : nat) :
  col < N -> c < N -> cursor N row col <= cursor N r c -> (r, c) <> (row, col) ->
  cursor N row (col + 1) <= cursor N r c.
Proof.
  unfold cursor. intros Hcol Hc Hle Hne.
  destruct (decide (r = row)) as [->|Hr].
  - assert (c <> col) by congruence. lia.
  - assert (row < r \/ r < row) as [H|H] by lia; nia.
Qed.

Lemma FillPost_cursor (N row col row' col' : nat) (s : State) (b : bool) (s' : State) :
  cursor N row col = cursor N row' col' ->
  FillPost N row' col' s b s' -> FillPost N row col s b s'.
Proof. unfold FillPost. intros ->. done. Qed.

(** Two states with the same grid and frame are interchangeable as the
    start of a run. *)
Lemma FillPost_start (N row col : nat) (s0 s : State) (b : bool) (s' : State) :
  Frame s0 s -> this_grid s = this_grid s0 ->
  FillPost N row col s b s' -> FillPost N row col s0 b s'.
Proof.
  intros HF Hg (HF' & Hfalse & Htrue). split; [by eapply Frame_trans|].
  rewrite <- Hg. by split.
Qed.

Section Filler.
Variable N : nat.
Hypothesis HN : supported N.

Section Loop.
Variable rec : State -> run State bool.
Variables row col : nat.
Hypothesis Hp : (row, col) ∈ allCells N.
Hypothesis rec_spec : forall s, SetUp N s -> Consistent N (this_grid s) ->
  exists b s', rec s = Done b s' /\ FillPost N row (col + 1) s b s'.

Lemma tryNumbers_spec (numbers : list Z) (s : State) :
  (forall v, v ∈ numbers -> (1 <= v <= Z.of_nat N)%Z) ->
  SetUp N s -> Consistent N (this_grid s) ->
  cell (this_grid s) row col = Some 0%Z ->
  exists b s', tryNumbers rec row col numbers s = Done b s' /\ FillPost N row col s b s'.
Proof.
  revert s. induction numbers as [|num rest IH]; intros s Hrg Hset Hcons Hz; simpl.
  - exists false, s. split; [done|]. split; [apply Frame_refl|]. by split.
  - assert (Hrest : forall v, v ∈ rest -> (1 <= v <= Z.of_nat N)%Z)
      by (intros; apply Hrg; by right).
    assert (Hnum : (1 <= num <= Z.of_nat N)%Z) by (apply Hrg; by left).
    assert (Hlen : length (this_grid s) = N)
      by (by destruct Hcons as [[? _]%hasShape_spec _]).
    rewrite (isValid_isValidForGrid N) by done.
    rewrite (isValidForGrid_peers N) by done.
    destruct (existsb (holds (this_grid s) num) (peers N (row, col))) eqn:Habs; simpl;
      [by apply IH|].
    set (s1 := withGrid (writeCell (this_grid s) row col num) s).
    assert (HF1 : Frame s s1) by (by repeat split).
    destruct (rec_spec s1) as (b & s2 & E & HF2 & Hfalse & Htrue).
    { by apply (SetUp_Frame N s). }
    { apply (place_consistent N (this_grid s) (row, col) num);
        auto using supported_geometry with lia. }
    rewrite E. destruct b.
    + exists true, s2. split; [done|]. split; [by eapply Frame_trans|].
      split; [done|]. intros _. destruct (Htrue eq_refl) as (Hc2 & Hkeep & Hafter).
      split; [done|]. split.
      * intros r c v Hc Hv. apply Hkeep; [|done]. simpl.
        rewrite cell_writeCell_ne; [done|]. intros [= -> ->]. congruence.
      * intros r c Hr Hc Hle. apply elem_of_allCells in Hp as Hp'.
        destruct (decide ((r, c) = (row, col))) as [[= -> ->]|Hne].
        -- rewrite (Hkeep row col num); [intros [= ?]; lia| |lia]. simpl.
           apply cell_writeCell_eq. by exists 0%Z.
        -- apply Hafter; [done..|]. apply cursor_next; [lia|done..].
    + specialize (Hfalse eq_refl). simpl in Hfalse.
      set (s3 := withGrid (writeCell (this_grid s2) row col 0) s2).
      assert (Hg3 : this_grid s3 = this_grid s).
      { simpl. rewrite Hfalse. by apply writeCell_undo. }
      assert (HF3 : Frame s s3).
      { eapply Frame_trans; [exact HF1|]. eapply Frame_trans; [exact HF2|].
        by repeat split. }
      destruct (IH s3) as (b' & s' & E' & Hpost); [done| | | |].
      * by apply (SetUp_Frame N s).
      * by rewrite Hg3.
      * by rewrite Hg3.
      * exists b', s'. split; [done|]. by apply (FillPost_start N row col s s3).
Qed.
End Loop.

Lemma readCell_inside (g : Grid) (row col : nat) :
  hasShape N g = true -> (row, col) ∈ allCells N ->
  exists v, readCell g (Whole row) (Whole col) = Cell v /\ cell g row col = Some v.
Proof.
  intros Hsh Hp. destruct (proj2 (cell_is_Some N g row col Hsh)) as [v Hv].
  { by apply elem_of_allCells. }
  exists v. split; [by apply readCell_cell|done].
Qed.

(** The specification of the recursive filler.  With enough fuel it
    returns, and never throws. *)
Lemma fillGridRecursive_spec (fuel row col : nat) (startTime timeout : Z) (s : State) :
  SetUp N s -> Consistent N (this_grid s) ->
  row <= N -> col <= N -> (row = N -> col = 0) ->
  fuelNeeded N row col <= fuel ->
  exists b s', fillGridRecursive fuel row col startTime timeout s = Done b s'
               /\ FillPost N row col s b s'.
Proof.
  revert row col s.
  induction fuel as [|fuel IH]; intros row col s Hset Hcons Hrow Hcol Hlast Hfuel.
  { exfalso. unfold fuelNeeded in Hfuel. destruct HN as [-> | [-> | ->]]; lia. }
  cbn [fillGridRecursive]. after_dateNow s s1 HF1 Hg1.
  assert (Hset1 : SetUp N s1) by (by apply (SetUp_Frame N s)).
  assert (Hsize : this_size s1 = N) by (by destruct Hset1).
  destruct (clock s (ticks s) - startTime >? timeout)%Z.
  { exists false, s1. split; [done|]. split; [done|]. by split. }
  rewrite Hsize. destruct (Nat.eqb_spec row N) as [->|Hrow'].
  { exists true, s1. split; [done|]. split; [done|]. split; [done|]. intros _.
    rewrite Hg1. split; [done|]. split; [done|].
    intros r c Hr Hc Hle. unfold cursor in Hle. nia. }
  destruct (Nat.eqb_spec col N) as [->|Hcol'].
  { destruct (IH (row + 1) 0 s1) as (b & s' & E & Hpost);
      [done|by rewrite Hg1|lia|lia|lia| |].
    - unfold fuelNeeded in *. destruct HN as [-> | [-> | ->]]; lia.
    - exists b, s'. split; [done|]. apply (FillPost_start N row N s s1); [done..|].
      apply (FillPost_cursor N row N (row + 1) 0); [unfold cursor; lia|done]. }
  assert (Hp : (row, col) ∈ allCells N) by (apply elem_of_allCells; lia).
  assert (Hsh : hasShape N (this_grid s) = true) by (by destruct Hcons).
  destruct (readCell_inside (this_grid s) row col Hsh Hp) as (v & Hread & Hcell).
  rewrite Hg1, Hread.
  assert (Hfuel' : fuelNeeded N row (col + 1) <= fuel).
  { unfold fuelNeeded in *. destruct HN as [-> | [-> | ->]]; lia. }
  destruct (Z.eqb_spec v 0) as [->|Hv].
  - destruct (shuffleArray_spec (oneToSize N) s1) as (Hperm & HF2 & Hg2 & _).
    destruct (shuffleArray (oneToSize N) s1) as [numbers s2] eqn:Esh. simpl in *.
    destruct (tryNumbers_spec (fillGridRecursive fuel row (col + 1) startTime timeout)
                row col Hp) with (numbers := numbers) (s := s2) as (b & s' & E & Hpost).
    + intros s0 Hset0 Hcons0. apply IH; [done|done|lia|lia|lia|done].
    + intros w Hw. apply oneToSize_range. by rewrite <- Hperm.
    + apply (SetUp_Frame N s1); done.
    + by rewrite Hg2, Hg1.
    + by rewrite Hg2, Hg1.
    + exists b, s'. split; [done|].
      apply (FillPost_start N row col s s2);
        [by eapply Frame_trans|by rewrite Hg2, Hg1|done].
  - destruct (IH row (col + 1) s1) as (b & s' & E & HF' & Hfalse & Htrue);
      [done|by rewrite Hg1|lia|lia|lia|done|].
    rewrite Hg1 in Hfalse, Htrue.
    exists b, s'. split; [done|]. split; [by eapply Frame_trans|]. split; [done|].
    intros Hb. destruct (Htrue Hb) as (Hc' & Hkeep & Hafter). split; [done|].
    split; [done|]. intros r c Hr Hc Hle.
    destruct (decide ((r, c) = (row, col))) as [[= -> ->]|Hne].
    + rewrite (Hkeep row col v); [congruence|done..].
    + apply Hafter; [done..|]. apply cursor_next; [lia|done..].
Qed.
End Filler.

(** ** generateComplete *)

Lemma cell_emptyGrid (N r c : nat) (v : Z) : cell (emptyGrid N) r c = Some v -> v = 0%Z.
Proof.
  unfold cell, emptyGrid. destruct (replicate N (replicate N 0%Z) !! r) as [cells|] eqn:E; [|done].
  apply lookup_replicate in E as [-> _]. by intros [-> _]%lookup_replicate.
Qed.

Lemma hasShape_emptyGrid (N : nat) : hasShape N (emptyGrid N) = true.
Proof.
  apply hasShape_spec. unfold emptyGrid. split; [apply length_replicate|].
  apply Forall_replicate, length_replicate.
Qed.

Lemma emptyGrid_consistent (N : nat) : Consistent N (emptyGrid N).
Proof.
  split; [apply hasShape_emptyGrid|]. split.
  - intros r c v ->%cell_emptyGrid. lia.
  - intros p q v _ _ _ H _. by apply cell_emptyGrid in H.
Qed.

Lemma SetUp_setSize (N : nat) (s : State) : SetUp N (setSize N s).
Proof. by split. Qed.

(** The fallback depends on the size only. *)
Lemma createFallbackGrid_grid (N : nat) (s : State) :
  SetUp N s -> this_grid s = emptyGrid N ->
  this_grid (createFallbackGrid s) = fallbackGrid N.
Proof.
  intros [Hs Hb] Hg. unfold fallbackGrid, createFallbackGrid. simpl in *.
  by rewrite Hs, Hb, Hg.
Qed.

(** A failed attempt leaves the grid as it was, for any size. *)
Section FillRestores.
Variable rec : State -> run State bool.
Hypothesis rec_restores : forall s s', rec s = Done false s' -> this_grid s' = this_grid s.

Lemma tryNumbers_restores (row col : nat) (numbers : list Z) (s s' : State) :
  cell (this_grid s) row col = Some 0%Z ->
  tryNumbers rec row col numbers s = Done false s' -> this_grid s' = this_grid s.
Proof.
  revert s. induction numbers as [|num rest IH]; intros s Hz; simpl; [congruence|].
  destruct (isValid s row col num) as [[|]|]; [|by apply IH|done].
  destruct (rec _) as [[|] s1|s1|] eqn:E; try done.
  apply rec_restores in E. simpl in E. intros H. apply IH in H.
  - rewrite H. simpl. rewrite E. by apply writeCell_undo.
  - simpl. rewrite E, writeCell_writeCell. apply cell_writeCell_eq. by exists 0%Z.
Qed.
End FillRestores.

Lemma fillGridRecursive_restores (fuel row col : nat) (startTime timeout : Z) (s s' : State) :
  fillGridRecursive fuel row col startTime timeout s = Done false s' ->
  this_grid s' = this_grid s.
Proof.
  revert row col s s'. induction fuel as [|fuel IH]; intros row col s s'; [done|].
  cbn [fillGridRecursive]. after_dateNow s s1 HF1 Hg1.
  destruct (_ >? _)%Z; [congruence|].
  destruct (row =? this_size s1); [done|].
  destruct (col =? this_size s1); [intros H%IH; congruence|].
  destruct (readCell (this_grid s1) (Whole row) (Whole col)) as [v| |] eqn:Hread;
    [|intros H%IH; congruence|done].
  destruct (Z.eqb_spec v 0) as [->|Hv]; [|intros H%IH; congruence].
  destruct (shuffleArray_spec (oneToSize (this_size s1)) s1) as (_ & _ & Hg2 & _).
  destruct (shuffleArray (oneToSize (this_size s1)) s1) as [numbers s2]. simpl in Hg2.
  intros H. apply tryNumbers_restores in H; [congruence|intros ? ?; apply IH|].
  rewrite Hg2. by apply readCell_cell.
Qed.

Section Generate.
Variable N : nat.
Hypothesis HN : supported N.

(** One attempt: it returns; a success leaves a valid grid. *)
Lemma fillGrid_spec (s : State) :
  SetUp N s -> this_grid s = emptyGrid N ->
  exists b s', fillGrid s = Done b s' /\ Frame s s' /\
    (b = false -> this_grid s' = emptyGrid N) /\
    (b = true -> sudokuValid N (this_grid s') = true).
Proof.
  intros Hset Hg. unfold fillGrid. after_dateNow s s1 HF1 Hg1.
  assert (Hset1 : SetUp N s1) by (by apply (SetUp_Frame N s)).
  destruct (fillGridRecursive_spec N HN (fillFuel (this_size s1)) 0 0
              (clock s (ticks s)) 5000 s1) as (b & s' & E & HF & Hfalse & Htrue);
    [done| |lia|lia|done| |].
  - rewrite Hg1, Hg. apply emptyGrid_consistent.
  - destruct Hset1 as [-> _]. unfold fuelNeeded, fillFuel. lia.
  - exists b, s'. split; [done|]. split; [by eapply Frame_trans|]. split.
    + intros Hb. rewrite (Hfalse Hb). congruence.
    + intros Hb. destruct (Htrue Hb) as (Hcons & _ & Hfull).
      apply consistent_full_valid; [by apply supported_geometry|done|].
      intros r c Hc. apply (Hfull r c); [| |unfold cursor; lia|done].
      * apply (cell_is_Some N _ r c (proj1 Hcons)). by exists 0%Z.
      * apply (cell_is_Some N _ r c (proj1 Hcons)). by exists 0%Z.
Qed.

Lemma attemptLoop_spec (remaining attempts maxAttempts : nat) (s : State) :
  SetUp N s -> this_grid s = emptyGrid N ->
  exists g s', attemptLoop remaining attempts maxAttempts s = Done g s' /\
    this_grid s' = g /\ this_solution s' = g /\ SetUp N s' /\
    clock s' = clock s /\ random s' = random s /\
    ((sudokuValid N g = true /\ exists k, last (console s') = Some (LogSuccess N k)) \/
     (g = fallbackGrid N /\ last (console s') = Some (LogFallback maxAttempts))).
Proof.
  revert attempts s. induction remaining as [|remaining IH]; intros attempts s Hset Hg.
  - simpl. eexists _, _. split; [done|]. split; [done|]. split; [done|].
    split; [done|]. split; [done|]. split; [done|]. right. split.
    + by apply createFallbackGrid_grid.
    + apply last_snoc.
  - cbn [attemptLoop].
    destruct (fillGrid_spec (withGrid (emptyGrid (this_size s)) s))
      as (b & s2 & E & HF & Hfalse & Htrue).
    { done. }
    { simpl. by destruct Hset as [-> _]. }
    rewrite E. assert (Hset2 : SetUp N s2) by (by apply (SetUp_Frame N _ _ HF)).
    destruct HF as (_ & _ & _ & Hck & Hrd & _). destruct b.
    + eexists _, _. split; [done|]. split; [done|]. split; [done|].
      split; [done|]. split; [done|]. split; [done|]. left. split; [by apply Htrue|].
      exists (attempts + 1). simpl. destruct Hset2 as [-> _]. apply last_snoc.
    + destruct (IH (attempts + 1) (consoleLog (LogRetry (attempts + 1)) s2))
        as (g & s' & E' & H1 & H2 & H3 & H4 & H5 & H6); [done|by apply Hfalse|].
      exists g, s'. split; [done|]. split; [done|]. split; [done|]. split; [done|].
      split; [by rewrite H4|]. split; [by rewrite H5|done].
Qed.

Lemma generateComplete_spec (s : State) :
  SetUp N s -> this_grid s = emptyGrid N ->
  exists g s', generateComplete s = Done g s' /\
    this_grid s' = g /\ this_solution s' = g /\ SetUp N s' /\
    clock s' = clock s /\ random s' = random s /\
    ((sudokuValid N g = true /\ exists k, last (console s') = Some (LogSuccess N k)) \/
     (g = fallbackGrid N /\ last (console s') = Some (LogFallback 10))).
Proof. apply attemptLoop_spec. Qed.
End Generate.

(** The fallback grid is valid for the sizes 4 and 9. *)
Lemma fallbackGrid_valid_4_9 (N : nat) : N = 4 \/ N = 9 -> sudokuValid N (fallbackGrid N) = true.
Proof. intros [-> | ->]; by vm_compute. Qed.

(** The fallback grid, whatever the size, has the right shape and no zero. *)
Lemma fallbackGrid_full (N : nat) :
  supported N -> hasShape N (fallbackGrid N) = true /\ complete (fallbackGrid N) = true.
Proof. intros [-> | [-> | ->]]; by vm_compute. Qed.

(** [generateComplete] returns a grid that satisfies the validity invariant,
    unless the size is 6 and the fallback was used. *)
Lemma generateComplete_valid (N : nat) (s : State) :
  supported N -> SetUp N s -> this_grid s = emptyGrid N ->
  exists g s', generateComplete s = Done g s' /\
    ((N = 6 -> last (console s') <> Some (LogFallback 10)) -> sudokuValid N g = true).
Proof.
  intros HN Hset Hg.
  destruct (generateComplete_spec N HN s Hset Hg) as (g & s' & E & _ & _ & _ & _ & _ & H).
  exists g, s'. split; [done|]. intros Hno. destruct H as [[Hv _]|[-> Hlast]]; [done|].
  destruct HN as [-> | [-> | ->]]; [by vm_compute|by destruct Hno|by vm_compute].
Qed.

(** ** Puzzle carver *)

Lemma removeCells_agrees (g : Grid) (k : nat) (ps : list (nat * nat)) :
  agreesWith (removeCells g k ps) g.
Proof.
  unfold removeCells. generalize (take k ps). clear ps. intros ps. revert g.
  induction ps as [|p ps IH]; intros g r c v Hc Hv; [done|]. simpl in Hc.
  apply IH in Hc; try done. by apply cell_writeCell in Hc as [[_ ->]|[_ Hc]].
Qed.

Lemma removeCells_shape (N : nat) (g : Grid) (k : nat) (ps : list (nat * nat)) :
  hasShape N g = true -> hasShape N (removeCells g k ps) = true.
Proof.
  unfold removeCells. generalize (take k ps). clear ps. intros ps. revert g.
  induction ps as [|p ps IH]; intros g Hsh; [done|]. simpl.
  by apply IH, hasShape_writeCell.
Qed.

Lemma zerosIn_none (cells : list Z) :
  forallb (fun v => negb (Z.eqb v 0)) cells = true -> zerosIn cells = 0.
Proof.
  unfold zerosIn. induction cells as [|v cells IH]; [done|]. simpl.
  intros [Hv H]%andb_true_iff. apply negb_true_iff, Z.eqb_neq in Hv.
  rewrite filter_cons, decide_False by done. by apply IH.
Qed.

Lemma zeros_complete (g : Grid) : complete g = true -> zeros g = 0.
Proof.
  unfold complete, zeros. induction g as [|cells g IH]; [done|]. simpl.
  intros [Hc H]%andb_true_iff. by rewrite zerosIn_none, IH.
Qed.

(** Zeroing distinct non-zero cells adds as many zeros. *)
Lemma zeros_foldl_remove (ps : list (nat * nat)) (g : Grid) :
  NoDup ps ->
  (forall p, p ∈ ps -> exists v, cell g p.1 p.2 = Some v /\ v <> 0%Z) ->
  zeros (foldl (fun g p => writeCell g p.1 p.2 0) g ps) = zeros g + length ps.
Proof.
  revert g. induction ps as [|p ps IH]; intros g Hnd Hcells; simpl; [lia|].
  apply NoDup_cons in Hnd as [Hnin Hnd].
  destruct (Hcells p) as (v & Hv & Hv0); [by left|].
  pose proof (zeros_writeCell g p.1 p.2 v 0 Hv) as E.
  rewrite decide_False in E by done. rewrite decide_True in E by done.
  rewrite IH; [lia|done|]. intros q Hq. destruct (Hcells q) as (w & Hw & Hw0); [by right|].
  exists w. split; [|done]. rewrite cell_writeCell_ne; [done|].
  intros Heq. apply Hnin. destruct p, q. simpl in *. by injection Heq as -> ->.
Qed.

Lemma allCells_facts (N : nat) :
  supported N -> NoDup (allCells N) /\ length (allCells N) = N * N.
Proof. intros [-> | [-> | ->]]; split; compute_done. Qed.

(** The carver zeroes [min toRemove (N * N)] cells of a full grid. *)
Lemma removeCells_zeros (N : nat) (g : Grid) (k : nat) (ps : list (nat * nat)) :
  supported N -> hasShape N g = true -> complete g = true -> ps ≡ₚ allCells N ->
  zeros (removeCells g k ps) = Nat.min k (N * N).
Proof.
  intros HN Hsh Hfull Hperm. destruct (allCells_facts N HN) as [Hnd Hlen].
  unfold removeCells. rewrite zeros_foldl_remove.
  - rewrite zeros_complete by done. rewrite length_take, Hperm, Hlen. lia.
  - apply (sublist_NoDup (take k ps) ps); [by rewrite Hperm|apply sublist_take].
  - intros [r c] Hp. simpl. apply (elem_of_sublist _ ps) in Hp; [|apply sublist_take].
    rewrite Hperm in Hp. apply elem_of_allCells in Hp.
    destruct (proj2 (cell_is_Some N g r c Hsh) Hp) as [v Hv]. exists v. split; [done|].
    intros ->. by apply (proj1 (complete_spec g) Hfull r c).
Qed.

(** The floor of the exact product is the removal count of the
    specification. *)
Lemma cellsToRemove_removalCount (N difficulty : nat) :
  supported N ->
  Z.of_nat (Nat.min (cellsToRemove (N * N) (percentage difficulty)) (N * N))
  = removalCount N difficulty.
Proof.
  intros [-> | [-> | ->]];
    do 6 (try destruct difficulty as [|difficulty]); by vm_compute.
Qed.

Section Carver.
Variable N : nat.
Hypothesis HN : supported N.

(** What [generatePuzzle] returns for a supported size. *)
Lemma generatePuzzle_spec (difficulty : nat) (s : State) :
  exists puzzle sol s' ps,
    generatePuzzle difficulty N s = Done (puzzle, sol) s' /\
    ps ≡ₚ allCells N /\
    puzzle = removeCells sol (cellsToRemove (N * N) (percentage difficulty)) ps /\
    hasShape N sol = true /\ complete sol = true /\
    ((N = 6 -> last (console s') <> Some (LogFallback 10)) -> sudokuValid N sol = true).
Proof.
  unfold generatePuzzle.
  destruct (generateComplete_spec N HN (setSize N s) (SetUp_setSize N s) eq_refl)
    as (g & s2 & E & Hg & Hsol & _ & _ & _ & Hres).
  rewrite E. destruct (shuffleArray_spec (allCells N) s2) as (Hperm & HF & _ & _).
  destruct (shuffleArray (allCells N) s2) as [ps s3]. simpl in Hperm, HF.
  destruct HF as (_ & _ & Hsol3 & _ & _ & Hcon).
  exists (removeCells g (cellsToRemove (N * N) (percentage difficulty)) ps), g, s3, ps.
  rewrite Hg, Hsol3, Hsol, Hcon. split; [done|]. split; [done|]. split; [done|].
  pose proof (supported_geometry N HN) as HG.
  destruct Hres as [[Hv _]|[-> Hlast]].
  - destruct (valid_consistent_full N g HG Hv) as [(Hsh & _) Hfull].
    split; [done|]. split; [by apply complete_spec|done].
  - destruct (fallbackGrid_full N HN) as [Hsh Hfull]. split; [done|]. split; [done|].
    intros Hno. destruct HN as [-> | [-> | ->]]; [by vm_compute|by destruct Hno|by vm_compute].
Qed.
End Carver.

(** C5. For a supported size and any difficulty, [generatePuzzle] returns a
    puzzle whose number of zero cells is the removal count of the
    specification: the floor of N*N times the removal fraction, capped at
    N*N. *)
Theorem generatePuzzle_removal_count (N difficulty : nat) (s : State) :
  supported N ->
  exists puzzle sol s',
    generatePuzzle difficulty N s = Done (puzzle, sol) s' /\
    Z.of_nat (zeros puzzle) = removalCount N difficulty.
Proof.
  intros HN.
  destruct (generatePuzzle_spec N HN difficulty s)
    as (puzzle & sol & s' & ps & E & Hperm & -> & Hsh & Hfull & _).
  eexists _, sol, s'. split; [done|].
  rewrite (removeCells_zeros N) by done. by apply cellsToRemove_removalCount.
Qed.

(** C6. For a supported size and any difficulty, [generatePuzzle] returns a
    pair in which every non-zero cell of the puzzle has the same content in
    the solution. *)
Theorem generatePuzzle_consistent (N difficulty : nat) (s : State) :
  supported N ->
  exists puzzle sol s',
    generatePuzzle difficulty N s = Done (puzzle, sol) s' /\
    forall r c v, cell puzzle r c = Some v -> v <> 0%Z -> cell sol r c = Some v.
Proof.
  intros HN.
  destruct (generatePuzzle_spec N HN difficulty s)
    as (puzzle & sol & s' & ps & E & _ & -> & _).
  eexists _, sol, s'. split; [done|]. apply removeCells_agrees.
Qed.

(** C3, as the code has it. For a supported size and any difficulty,
    [generatePuzzle] returns a puzzle on which [solvePuzzle] returns true,
    leaving a complete grid that satisfies the validity invariant and keeps
    the given cells of the puzzle, whenever the solution did not come from
    the fallback of size 6.  The grid found need not be the paired
    solution. *)
Theorem generated_puzzle_solvable (N difficulty : nat) (s : State) :
  supported N ->
  exists puzzle sol s',
    generatePuzzle difficulty N s = Done (puzzle, sol) s' /\
    ((N = 6 -> last (console s') <> Some (LogFallback 10)) ->
     exists g, solvePuzzle puzzle = Done true g /\
               complete g = true /\ sudokuValid N g = true /\ agreesWith puzzle g).
Proof.
  intros HN.
  destruct (generatePuzzle_spec N HN difficulty s)
    as (puzzle & sol & s' & ps & E & _ & -> & Hsh & _ & Hvalid).
  eexists _, sol, s'. split; [done|]. intros Hno.
  destruct (solvePuzzle_of_carved N HN
              (removeCells sol (cellsToRemove (N * N) (percentage difficulty)) ps) sol)
    as (g & Hs & Hv & Hc & Hk).
  - by apply removeCells_shape.
  - by apply Hvalid.
  - apply removeCells_agrees.
  - by exists g.
Qed.

(** ** Hint provider *)

(** C7. For two grids of the same size, [getHint] returns null exactly when
    the current grid has no zero cell; otherwise it returns a position at
    which the current grid is zero together with the content of the solution
    at that position.  In both cases the two grids are as they were. *)
Theorem getHint_spec (N : nat) (h : HintState) :
  hasShape N (currentGrid h) = true -> hasShape N (solutionGrid h) = true ->
  exists r h',
    getHint h = Done r h' /\
    currentGrid h' = currentGrid h /\ solutionGrid h' = solutionGrid h /\
    (r = None <-> forall row col, cell (currentGrid h) row col <> Some 0%Z) /\
    (forall hint, r = Some hint ->
       cell (currentGrid h) (hintRow hint) (hintCol hint) = Some 0%Z /\
       is_Some (hintValue hint) /\
       hintValue hint = cell (solutionGrid h) (hintRow hint) (hintCol hint)).
Proof.
  intros Hcur Hsol. unfold getHint.
  apply hasShape_spec in Hcur as Hl. destruct Hl as [Hl _]. rewrite Hl.
  set (emptyCells := List.filter (isEmptyAt (currentGrid h)) (allCells N)).
  assert (Hempty : forall row col, (row, col) ∈ emptyCells <->
            cell (currentGrid h) row col = Some 0%Z).
  { intros row col. unfold emptyCells.
    rewrite list_elem_of_In, filter_In, isEmptyAt_cell. simpl. split; [by intros [_ ?]|].
    intros Hc. split; [|done]. apply list_elem_of_In, elem_of_allCells.
    apply (cell_is_Some N _ row col Hcur). by exists 0%Z. }
  destruct (Nat.eqb_spec (length emptyCells) 0) as [Hnil|Hcons].
  - exists None, h. split; [done|]. split; [done|]. split; [done|]. split; [|done].
    split; [|done]. intros _ row col Hc. apply Hempty in Hc.
    apply length_zero_iff_nil in Hnil. rewrite Hnil in Hc. by apply elem_of_nil in Hc.
  - cbn [mathRandom].
    set (randomIndex := floorScale (random (generator h) (draws (generator h)))
                          (length emptyCells)).
    assert (Hidx : randomIndex < length emptyCells) by (apply floorScale_lt; lia).
    destruct (lookup_lt_is_Some_2 emptyCells randomIndex Hidx) as [[row col] Hp].
    rewrite Hp. apply list_elem_of_lookup_2, Hempty in Hp as Hzero.
    assert (Hin : (row, col) ∈ allCells N).
    { apply elem_of_allCells, (cell_is_Some N _ row col Hcur). by exists 0%Z. }
    destruct (proj2 (cell_is_Some N _ row col Hsol)) as [v Hv].
    { by apply elem_of_allCells. }
    apply readCell_cell in Hv as Hread. rewrite Hread.
    eexists _, _. split; [done|]. split; [done|]. split; [done|]. split.
    + split; [done|]. intros Hfull. by apply Hfull in Hzero.
    + intros hint [= <-]. simpl. split; [done|]. split; [by exists v|done].
Qed.

(** ** The time budget of a fill attempt *)

Section FillClock.
Variable rec : State -> run State bool.
Variables startTime timeout : Z.
Hypothesis rec_frame : forall s b s', rec s = Done b s' -> Frame s s'.
Hypothesis rec_last : forall s s', rec s = Done true s' ->
  0 < ticks s' /\ (clock s' (ticks s' - 1) - startTime <= timeout)%Z.

Lemma tryNumbers_frame (row col : nat) (numbers : list Z) (s : State) (b : bool) (s' : State) :
  tryNumbers rec row col numbers s = Done b s' -> Frame s s'.
Proof.
  revert s. induction numbers as [|num rest IH]; intros s; simpl.
  - intros [= <- <-]. apply Frame_refl.
  - destruct (isValid s row col num) as [[|]|]; [|by apply IH|done].
    destruct (rec _) as [[|] s1|s1|] eqn:E; try done.
    + intros [= <- <-]. by apply rec_frame in E.
    + apply rec_frame in E. intros H%IH.
      eapply Frame_trans; [|exact H]. eapply Frame_trans; [exact E|]. by repeat split.
Qed.

Lemma tryNumbers_last (row col : nat) (numbers : list Z) (s s' : State) :
  tryNumbers rec row col numbers s = Done true s' ->
  0 < ticks s' /\ (clock s' (ticks s' - 1) - startTime <= timeout)%Z.
Proof.
  revert s. induction numbers as [|num rest IH]; intros s; simpl; [done|].
  destruct (isValid s row col num) as [[|]|]; [|by apply IH|done].
  destruct (rec _) as [[|] s1|s1|] eqn:E; try done.
  - intros [= <-]. by apply rec_last in E.
  - apply IH.
Qed.
End FillClock.

Lemma fillGridRecursive_frame (fuel row col : nat) (startTime timeout : Z)
  (s : State) (b : bool) (s' : State) :
  fillGridRecursive fuel row col startTime timeout s = Done b s' -> Frame s s'.
Proof.
  revert row col s b s'. induction fuel as [|fuel IH]; intros row col s b s'; [done|].
  cbn [fillGridRecursive]. after_dateNow s s1 HF1 Hg1.
  assert (Hrec : forall r c, fillGridRecursive fuel r c startTime timeout s1 = Done b s' ->
            Frame s s').
  { intros r c H%IH. by eapply Frame_trans. }
  destruct (_ >? _)%Z; [by intros [= <- <-]|].
  destruct (row =? this_size s1); [by intros [= <- <-]|].
  destruct (col =? this_size s1); [apply Hrec|].
  destruct (readCell (this_grid s1) (Whole row) (Whole col)) as [v| |]; [|apply Hrec|done].
  destruct (Z.eqb v 0); [|apply Hrec].
  destruct (shuffleArray_spec (oneToSize (this_size s1)) s1) as (_ & HF2 & _ & _).
  destruct (shuffleArray (oneToSize (this_size s1)) s1) as [numbers s2]. simpl in HF2.
  intros H%tryNumbers_frame; [|intros ? ? ?; apply IH].
  eapply Frame_trans; [exact HF1|]. by eapply Frame_trans.
Qed.

(** A successful run has read the clock, and its last reading was within the
    budget. *)
Lemma fillGridRecursive_last (fuel row col : nat) (startTime timeout : Z) (s s' : State) :
  fillGridRecursive fuel row col startTime timeout s = Done true s' ->
  0 < ticks s' /\ (clock s' (ticks s' - 1) - startTime <= timeout)%Z.
Proof.
  revert row col s s'. induction fuel as [|fuel IH]; intros row col s s'; [done|].
  cbn [fillGridRecursive]. unfold dateNow.
  destruct (Z.gtb_spec (clock s (ticks s) - startTime) timeout) as [|Hle]; [done|].
  cbn [this_size this_grid].
  destruct (row =? this_size s).
  { intros [= <-]. simpl. rewrite Nat.sub_0_r. split; [lia|done]. }
  destruct (col =? this_size s); [apply IH|].
  destruct (readCell (this_grid s) (Whole row) (Whole col)) as [v| |]; [|apply IH|done].
  destruct (Z.eqb v 0); [|apply IH].
  destruct (shuffleArray _ _) as [numbers s2].
  apply tryNumbers_last. intros ? ?. apply IH.
Qed.

(** C9. A fill attempt has a budget of 5000 ms from its first clock reading.
    Every recursive call reads the clock first, and a call entered when more
    than 5000 ms have elapsed returns false at once: the grid is untouched
    and no random number is drawn.  With a clock that does not run
    backwards, an attempt during which the budget was exceeded at some
    reading returns false, with the grid as it was. *)
Theorem fill_attempt_budget (s s0 : State) (fuel row col : nat) (startTime : Z) :
  (clock s0 (ticks s0) - startTime > 5000)%Z ->
  (forall i j, i <= j -> (clock s i <= clock s j)%Z) ->
  (fillGridRecursive (S fuel) row col startTime 5000 s0 = Done false (dateNow s0).2 /\
   this_grid (dateNow s0).2 = this_grid s0 /\ draws (dateNow s0).2 = draws s0) /\
  fillGrid s
  = fillGridRecursive (fillFuel (this_size s)) 0 0 (clock s (ticks s)) 5000 (dateNow s).2 /\
  (forall b s', fillGrid s = Done b s' ->
     (exists k, k < ticks s' /\ (clock s k - clock s (ticks s) > 5000)%Z) ->
     b = false /\ this_grid s' = this_grid s).
Proof.
  intros Hlate Hmono. split; [|split; [done|]].
  - split; [|done]. cbn [fillGridRecursive]. unfold dateNow.
    destruct (Z.gtb_spec (clock s0 (ticks s0) - startTime) 5000); [done|lia].
  - intros b s' E (k & Hk & Hover).
    change (fillGrid s) with
      (fillGridRecursive (fillFuel (this_size s)) 0 0 (clock s (ticks s)) 5000 (dateNow s).2) in E.
    apply fillGridRecursive_frame in E as HF. destruct HF as (_ & _ & _ & Hclock & _).
    change (clock (dateNow s).2) with (clock s) in Hclock.
    destruct b.
    + exfalso. apply fillGridRecursive_last in E as [Hpos Hlast].
      rewrite Hclock in Hlast. specialize (Hmono k (ticks s' - 1)). lia.
    + split; [done|]. by apply fillGridRecursive_restores in E.
Qed.

(** ** The fallback grid of size 6 *)

(** C2, at the size 6. The fallback pattern repeats its first row as its last
    row: the cells (0,0) and (5,0) both hold 1, and the grid does not satisfy
    the validity invariant.  (For the sizes 4 and 9 it does:
    [fallbackGrid_valid_4_9].) *)
Theorem fallbackGrid_6_invalid :
  this_grid (createFallbackGrid slowGenerator6)
  = [[1; 2; 3; 4; 5; 6]; [3; 4; 5; 6; 1; 2]; [6; 1; 2; 3; 4; 5];
     [2; 3; 4; 5; 6; 1]; [5; 6; 1; 2; 3; 4]; [1; 2; 3; 4; 5; 6]]%Z /\
  fallbackValue 6 2 0 0 = 1%Z /\ fallbackValue 6 2 5 0 = 1%Z /\
  valuesAt (this_grid (createFallbackGrid slowGenerator6)) (colUnit 6 0)
  = [Some 1; Some 3; Some 6; Some 2; Some 5; Some 1]%Z /\
  sudokuValid 6 (this_grid (createFallbackGrid slowGenerator6)) = false.
Proof. repeat split; by vm_compute. Qed.

(** C1, at the size 6 under a clock that lets every attempt time out. The
    ten attempts fail, the fallback is logged and returned, and the grid
    returned does not satisfy the validity invariant. *)
Theorem generateComplete_6_timeouts_invalid :
  match generateComplete slowGenerator6 with
  | Done g s' =>
      last (console s') = Some (LogFallback 10) /\
      g = fallbackGrid 6 /\ this_solution s' = g /\ sudokuValid 6 g = false
  | _ => False
  end.
Proof. vm_compute. repeat split; reflexivity. Qed.

(** ** A generated puzzle with two solutions *)

(** C3 as stated fails at the lowest removal fraction: this run of
    [generatePuzzle 1 9] removes 24 cells of a valid solution, the solver
    returns true on the puzzle, and the grid it finds is not the paired
    solution (it exchanges 6 and 2 in the rows 3 and 7). *)
Lemma generated_puzzle_other_solution :
  let r := generatePuzzle 1 9 (newGenerator frozenClock (lcgRandom 12)) in
  sudokuValid 9 (solutionOf r) = true /\
  zeros (puzzleOf r) = 24 /\
  (exists g, solvePuzzle (puzzleOf r) = Done true g /\ sudokuValid 9 g = true
             /\ g <> solutionOf r) /\
  ~ (forall g, solvePuzzle (puzzleOf r) = Done true g -> g = solutionOf r).
Proof.
  assert (H : exists g, solvePuzzle (puzzleOf (generatePuzzle 1 9
                 (newGenerator frozenClock (lcgRandom 12)))) = Done true g
              /\ sudokuValid 9 g = true
              /\ g <> solutionOf (generatePuzzle 1 9
                        (newGenerator frozenClock (lcgRandom 12)))).
  { eexists. split; [by vm_compute|]. split; [by vm_compute|]. by vm_compute. }
  cbv zeta. split; [by vm_compute|]. split; [by vm_compute|]. split; [done|].
  intros Hall. destruct H as (g & Hs & _ & Hne). by apply Hne, Hall.
Qed.

(** ** The solver on sizes without a whole box size *)

(** Size 5: [Math.sqrt(5)] is about 2.236.  For the row 3 the window starts
    at the row 2.236, which does not exist, and the validator throws; for the
    rows 0 to 2 it starts at the row 0. *)
Example isValidForGrid_size5 :
  isValidForGrid (emptyGrid 5) 3 0 1 = Throw /\
  isValidForGrid (emptyGrid 5) 2 2 1 = Ret true /\
  isValidForGrid (writeCell (emptyGrid 5) 0 0 1) 2 2 1 = Ret false.
Proof. repeat split; reflexivity. Qed.

(** Size 2: the window of every cell is the whole grid, whose four cells
    cannot take four distinct values among 1 and 2. *)
Example solvePuzzle_size2 : solvePuzzle (emptyGrid 2) = Done false (emptyGrid 2).
Proof. reflexivity. Qed.

(** ** Worked instances *)

Lemma generatePuzzle_removal_count_witness :
  supported 9 /\ removalCount 9 3 = 40%Z /\
  exists puzzle sol s',
    generatePuzzle 3 9 (newGenerator frozenClock (lcgRandom 5)) = Done (puzzle, sol) s' /\
    Z.of_nat (zeros puzzle) = removalCount 9 3.
Proof.
  assert (H : supported 9) by (right; by right).
  split; [done|]. split; [reflexivity|].
  exact (generatePuzzle_removal_count 9 3 (newGenerator frozenClock (lcgRandom 5)) H).
Defined.

Lemma generatePuzzle_consistent_witness :
  supported 4 /\
  exists puzzle sol s',
    generatePuzzle 5 4 (newGenerator frozenClock zeroRandom) = Done (puzzle, sol) s' /\
    forall r c v, cell puzzle r c = Some v -> v <> 0%Z -> cell sol r c = Some v.
Proof.
  assert (H : supported 4) by (by left).
  split; [done|].
  exact (generatePuzzle_consistent 4 5 (newGenerator frozenClock zeroRandom) H).
Defined.

Lemma generated_puzzle_solvable_witness :
  supported 6 /\
  exists puzzle sol s',
    generatePuzzle 2 6 (newGenerator frozenClock (lcgRandom 3)) = Done (puzzle, sol) s' /\
    last (console s') <> Some (LogFallback 10) /\
    exists g, solvePuzzle puzzle = Done true g /\
              complete g = true /\ sudokuValid 6 g = true /\ agreesWith puzzle g.
Proof.
  assert (H : supported 6) by (right; by left).
  split; [done|].
  destruct (generated_puzzle_solvable 6 2 (newGenerator frozenClock (lcgRandom 3)) H)
    as (puzzle & sol & s' & E & Hsolve).
  assert (Hlog : last (console s') <> Some (LogFallback 10)).
  { vm_compute in E. injection E as _ _ <-. discriminate. }
  exists puzzle, sol, s'. split; [done|]. split; [done|]. by apply Hsolve.
Defined.

Lemma getHint_spec_witness :
  let h := {| currentGrid := stuck4; solutionGrid := fallbackGrid 4;
              generator := newGenerator frozenClock zeroRandom |} in
  hasShape 4 (currentGrid h) = true /\ hasShape 4 (solutionGrid h) = true /\
  exists r h',
    getHint h = Done r h' /\
    currentGrid h' = currentGrid h /\ solutionGrid h' = solutionGrid h /\
    (r = None <-> forall row col, cell (currentGrid h) row col <> Some 0%Z) /\
    (forall hint, r = Some hint ->
       cell (currentGrid h) (hintRow hint) (hintCol hint) = Some 0%Z /\
       is_Some (hintValue hint) /\
       hintValue hint = cell (solutionGrid h) (hintRow hint) (hintCol hint)).
Proof.
  cbv zeta. split; [reflexivity|]. split; [reflexivity|].
  apply (getHint_spec 4); reflexivity.
Defined.

Lemma fill_attempt_budget_witness :
  let s := setSize 4 (newGenerator slowClock zeroRandom) in
  (clock (dateNow s).2 (ticks (dateNow s).2) - clock s (ticks s) > 5000)%Z /\
  (forall i j, i <= j -> (clock s i <= clock s j)%Z) /\
  fillGrid s = Done false (dateNow (dateNow s).2).2 /\
  this_grid (dateNow (dateNow s).2).2 = this_grid s.
Proof.
  cbv zeta.
  assert (Hlate : (clock (dateNow (setSize 4 (newGenerator slowClock zeroRandom))).2
                     (ticks (dateNow (setSize 4 (newGenerator slowClock zeroRandom))).2)
                   - clock (setSize 4 (newGenerator slowClock zeroRandom))
                       (ticks (setSize 4 (newGenerator slowClock zeroRandom))) > 5000)%Z)
    by reflexivity.
  assert (Hmono : forall i j, i <= j ->
            (clock (setSize 4 (newGenerator slowClock zeroRandom)) i
             <= clock (setSize 4 (newGenerator slowClock zeroRandom)) j)%Z).
  { intros i j Hij. simpl. unfold slowClock. lia. }
  split; [done|]. split; [done|].
  destruct (fill_attempt_budget (setSize 4 (newGenerator slowClock zeroRandom))
              (dateNow (setSize 4 (newGenerator slowClock zeroRandom))).2
              (fillFuel 4 - 1) 0 0
              (clock (setSize 4 (newGenerator slowClock zeroRandom))
                 (ticks (setSize 4 (newGenerator slowClock zeroRandom))))
              Hlate Hmono) as ((Hcall & Hgrid & _) & Hfill & _).
  split; [|done]. rewrite Hfill. exact Hcall.
Defined.

(** * More of the engine *)

(** ** shuffleArray *)

Lemma shuffleLoop_draws {A} (i : nat) (l : list A) (s : State) :
  draws (shuffleLoop i l s).2 = draws s + i.
Proof.
  revert l s. induction i as [|i IH]; intros l s; simpl; [lia|].
  rewrite IH. simpl. lia.
Qed.

(** X1. [shuffleArray] returns a rearrangement of the array it is given, of the
    same length, after drawing one random number for each element but one (none
    for the empty array); the grid, the clock and the rest of the object are
    left alone. *)
Theorem shuffleArray_rearranges {A} (array : list A) (s : State) :
  (shuffleArray array s).1 ≡ₚ array /\
  length (shuffleArray array s).1 = length array /\
  draws (shuffleArray array s).2 = draws s + (length array - 1) /\
  ticks (shuffleArray array s).2 = ticks s /\
  this_grid (shuffleArray array s).2 = this_grid s /\
  Frame s (shuffleArray array s).2.
Proof.
  destruct (shuffleArray_spec array s) as (Hperm & HF & Hg & Ht).
  split; [done|]. split; [by rewrite Hperm|]. split; [apply shuffleLoop_draws|done].
Qed.

(** ** Validator *)

Lemma occursAt_row_hit (g : Grid) (size row col : nat) (num : Z) :
  col < size -> cell g row col = Some num ->
  occursAt g num (rowCells size row) = Ret true.
Proof.
  intros Hcol Hc. unfold cell in Hc. destruct (g !! row) as [cells|] eqn:Hrow; [|done].
  rewrite occursAt_hit.
  - f_equal. apply existsb_exists. exists (Whole row, Whole col). split.
    + unfold rowCells. apply in_map_iff. exists col. split; [done|]. apply in_seq. lia.
    + unfold hit, readCell. simpl. rewrite Hrow, Hc. apply Z.eqb_refl.
  - unfold rowCells. apply Forall_map, Forall_forall. intros c _. simpl.
    unfold readCell. rewrite Hrow. by destruct (cells !! c).
Qed.

(** X2. The validators do not set the target cell aside: a value that the cell
    itself already holds is rejected, on every grid. *)
Theorem validators_reject_value_in_place (s : State) (g : Grid) (row col : nat) (num : Z) :
  col < length g -> cell g row col = Some num ->
  this_grid s = g -> this_size s = length g ->
  isValidForGrid g row col num = Ret false /\ isValid s row col num = Ret false.
Proof.
  intros Hcol Hc Hg Hs. unfold isValidForGrid, isValid, checkPlacement.
  rewrite Hg, Hs. by rewrite (occursAt_row_hit g (length g) row col num).
Qed.

Lemma validators_reject_value_in_place_witness :
  isValidForGrid solved4 2 1 1 = Ret false /\ isValid (generatorWith solved4) 2 1 1 = Ret false.
Proof.
  apply (validators_reject_value_in_place (generatorWith solved4) solved4 2 1 1);
    [simpl; lia|reflexivity|reflexivity|reflexivity].
Defined.

Lemma peers_units (N : nat) (p q : nat * nat) :
  Geometry N -> p ∈ allCells N ->
  (q ∈ peers N p <-> exists u, u ∈ units N /\ p ∈ u /\ q ∈ u).
Proof.
  intros HG Hp. split.
  - intros Hq. pose proof (geo_peers_units N HG) as H.
    rewrite Forall_forall in H. specialize (H p Hp). rewrite Forall_forall in H.
    specialize (H q Hq). apply Exists_exists in H as (u & Hu & Hpu & Hqu). eauto.
  - intros (u & Hu & Hpu & Hqu). by apply (unit_facts N u HG Hu).
Qed.

(** X3. On a grid of a supported size the validator returns, and it rejects
    [num] exactly when a cell in the row, in the column or in the box of the
    target cell holds [num]. *)
Theorem isValidForGrid_rejects_iff (N : nat) (g : Grid) (row col : nat) (num : Z) :
  supported N -> hasShape N g = true -> row < N -> col < N ->
  exists b, isValidForGrid g row col num = Ret b /\
    (b = false <->
     exists u q, u ∈ units N /\ (row, col) ∈ u /\ q ∈ u /\ cell g q.1 q.2 = Some num).
Proof.
  intros HN Hsh Hrow Hcol. apply hasShape_spec in Hsh as Hl. destruct Hl as [Hl _].
  assert (Hp : (row, col) ∈ allCells N) by (by apply elem_of_allCells).
  pose proof (supported_geometry N HN) as HG.
  rewrite (isValidForGrid_peers N g row col num HN Hl Hp). eexists. split; [done|].
  rewrite negb_false_iff, existsb_exists. split.
  - intros (q & Hq & Hh). apply list_elem_of_In in Hq.
    apply (peers_units N (row, col) q HG Hp) in Hq as (u & Hu & Hpu & Hqu).
    exists u, q. split; [done|]. split; [done|]. split; [done|].
    unfold holds in Hh. destruct (cell g q.1 q.2) as [v|]; [|done].
    by apply Z.eqb_eq in Hh as ->.
  - intros (u & q & Hu & Hpu & Hqu & Hc). exists q. split.
    + apply list_elem_of_In, (peers_units N (row, col) q HG Hp). eauto.
    + unfold holds. rewrite Hc. apply Z.eqb_refl.
Qed.

Lemma isValidForGrid_rejects_iff_witness :
  supported 6 /\ hasShape 6 colOnly6 = true /\
  exists b, isValidForGrid colOnly6 1 4 4 = Ret b /\
    (b = false <->
     exists u q, u ∈ units 6 /\ (1, 4) ∈ u /\ q ∈ u /\ cell colOnly6 q.1 q.2 = Some 4%Z).
Proof.
  assert (H : supported 6) by (right; by left).
  split; [done|]. split; [reflexivity|].
  apply (isValidForGrid_rejects_iff 6 colOnly6 1 4 4 H); [reflexivity|lia|lia].
Defined.

(** X4. After [setSize(N)], for [N] equal to 6 or a perfect square, the validator
    of the generator on [this.grid] is the validator of the solver on that
    grid: the two copies of the code agree, also where they throw. *)
Theorem validators_agree (N : nat) (s : State) (g : Grid) (row col : nat) (num : Z) :
  N = 6 \/ Nat.sqrt N * Nat.sqrt N = N -> length g = N ->
  isValid (withGrid g (setSize N s)) row col num = isValidForGrid g row col num.
Proof.
  intros HN Hl. unfold isValid, isValidForGrid. simpl. rewrite Hl.
  destruct (Nat.eqb_spec N 6) as [->|H6]; [done|]. f_equal.
  destruct HN as [->|Hsq]; [done|]. unfold sqrtBoxCells.
  rewrite (proj2 (Nat.eqb_eq _ _) Hsq).
  destruct (Nat.eqb_spec N 4) as [->|H4]; [done|].
  by destruct (Nat.eqb_spec N 9) as [->|H9].
Qed.

Lemma validators_agree_witness :
  (16 = 6 \/ Nat.sqrt 16 * Nat.sqrt 16 = 16) /\ length (emptyGrid 16) = 16 /\
  isValid (withGrid (emptyGrid 16) (setSize 16 (newGenerator frozenClock zeroRandom))) 5 9 3
  = isValidForGrid (emptyGrid 16) 5 9 3.
Proof.
  assert (H : 16 = 6 \/ Nat.sqrt 16 * Nat.sqrt 16 = 16) by (right; reflexivity).
  split; [done|]. split; [reflexivity|].
  apply (validators_agree 16 (newGenerator frozenClock zeroRandom) (emptyGrid 16) 5 9 3 H).
  reflexivity.
Defined.

(** ** Executable consistency *)

Lemma consistentb_Consistent (N : nat) (g : Grid) :
  consistentb N g = true -> Consistent N g.
Proof.
  unfold consistentb. intros [[Hsh Hrg]%andb_true_iff Hcl]%andb_true_iff.
  split; [done|]. split.
  - intros r c v Hc. unfold cell in Hc. destruct (g !! r) as [cells|] eqn:Hr; [|done].
    unfold inRangeb in Hrg. rewrite forallb_forall in Hrg.
    specialize (Hrg cells). rewrite forallb_forall in Hrg.
    assert (H : (0 <=? v)%Z && (v <=? Z.of_nat N)%Z = true).
    { apply Hrg; apply list_elem_of_In; by eapply list_elem_of_lookup_2. }
    apply andb_true_iff in H as [H1 H2]. lia.
  - intros p q v Hp Hq Hne Hcp Hcq.
    unfold clashFree in Hcl. rewrite forallb_forall in Hcl.
    specialize (Hcl p). rewrite forallb_forall in Hcl.
    assert (H : bool_decide (q = p) || negb (clash g p q) = true).
    { apply Hcl; by apply list_elem_of_In. }
    rewrite bool_decide_eq_false_2 in H by done. simpl in H.
    unfold clash in H. rewrite Hcp, Hcq, Z.eqb_refl in H. simpl in H.
    by apply negb_true_iff, negb_false_iff, Z.eqb_eq in H.
Qed.

(** ** Solver: the shape of the grid and what a success means *)

Lemma dims_writeCell (g : Grid) (r c : nat) (v : Z) :
  map length (writeCell g r c v) = map length g.
Proof.
  unfold writeCell. revert r. induction g as [|cells g IH]; intros [|r]; simpl; [done..| |].
  - by rewrite length_insert.
  - f_equal. apply IH.
Qed.

Lemma hasShape_dims (N : nat) (g g' : Grid) :
  map length g' = map length g -> hasShape N g' = hasShape N g.
Proof.
  intros H. unfold hasShape.
  assert (Hl : length g' = length g).
  { by rewrite <- (length_map length g'), H, length_map. }
  rewrite Hl. f_equal.
  assert (Hf : forall l : Grid,
            forallb (fun cells => length cells =? N) l = forallb (fun n => n =? N) (map length l)).
  { induction l as [|x l IH]; simpl; [done|]. by rewrite IH. }
  by rewrite !Hf, H.
Qed.

Section TryValuesDims.
Variable rec : Grid -> run Grid bool.
Hypothesis rec_dims : forall g b g', rec g = Done b g' -> map length g' = map length g.
Hypothesis rec_full : forall g g', rec g = Done true g' -> firstEmpty g' = None.

Lemma tryValues_dims (row col : nat) (nums : list Z) (g : Grid) (b : bool) (g' : Grid) :
  tryValues rec row col nums g = Done b g' -> map length g' = map length g.
Proof.
  revert g. induction nums as [|num rest IH]; intros g; simpl; [by intros [= <- <-]|].
  destruct (isValidForGrid g row col num) as [[|]|]; [|by apply IH|done].
  destruct (rec (writeCell g row col num)) as [[|] g1|g1|] eqn:E; try done.
  - intros [= <- <-]. apply rec_dims in E. by rewrite E, dims_writeCell.
  - apply rec_dims in E. intros H%IH. by rewrite H, !dims_writeCell, E, dims_writeCell.
Qed.

Lemma tryValues_full (row col : nat) (nums : list Z) (g g' : Grid) :
  tryValues rec row col nums g = Done true g' -> firstEmpty g' = None.
Proof.
  revert g. induction nums as [|num rest IH]; intros g; simpl; [done|].
  destruct (isValidForGrid g row col num) as [[|]|]; [|by apply IH|done].
  destruct (rec (writeCell g row col num)) as [[|] g1|g1|] eqn:E; try done.
  - intros [= <-]. by apply rec_full in E.
  - apply IH.
Qed.
End TryValuesDims.

Lemma solvePuzzleFuel_dims (fuel : nat) (g : Grid) (b : bool) (g' : Grid) :
  solvePuzzleFuel fuel g = Done b g' -> map length g' = map length g.
Proof.
  revert g b g'. induction fuel as [|fuel IH]; intros g b g'; simpl; [done|].
  destruct (firstEmpty g) as [[row col]|]; [|by intros [= <- <-]].
  apply tryValues_dims. apply IH.
Qed.

Lemma solvePuzzleFuel_full (fuel : nat) (g g' : Grid) :
  solvePuzzleFuel fuel g = Done true g' -> firstEmpty g' = None.
Proof.
  revert g g'. induction fuel as [|fuel IH]; intros g g'; simpl; [done|].
  destruct (firstEmpty g) as [[row col]|] eqn:E; [|by intros [= <-]].
  apply tryValues_full. apply IH.
Qed.

(** X5. When [solvePuzzle] returns true, on any grid: the rows have kept their
    lengths, every cell that was filled has kept its content, and no cell
    within the first [size] rows and columns is zero. *)
Theorem solvePuzzle_true_fills (g g' : Grid) :
  solvePuzzle g = Done true g' ->
  map length g' = map length g /\
  agreesWith g g' /\
  forall r c, r < length g -> c < length g -> cell g' r c <> Some 0%Z.
Proof.
  intros E. apply solvePuzzleFuel_dims in E as Hd.
  split; [done|]. split; [by apply solvePuzzleFuel_keeps in E|].
  apply solvePuzzleFuel_full in E. intros r c Hr Hc Hz.
  assert (Hl : length g' = length g) by (by rewrite <- (length_map length g'), Hd, length_map).
  unfold firstEmpty in E. rewrite Hl in E.
  assert (Hin : In (r, c) (allCells (length g))).
  { apply list_elem_of_In, elem_of_allCells. lia. }
  pose proof (find_none _ _ E (r, c) Hin) as Hf.
  apply not_true_iff_false in Hf. apply Hf. by apply isEmptyAt_cell.
Qed.

Lemma solvePuzzle_true_fills_witness :
  solvePuzzle puzzle4 = Done true solved4 /\
  map length solved4 = map length puzzle4 /\
  agreesWith puzzle4 solved4 /\
  forall r c, r < length puzzle4 -> c < length puzzle4 -> cell solved4 r c <> Some 0%Z.
Proof.
  split; [by vm_compute|]. apply (solvePuzzle_true_fills puzzle4 solved4). by vm_compute.
Defined.

Lemma in_window (a b h w : nat) (p : index * index) :
  In p (window (Whole a) (Whole b) h w) ->
  exists i j, i < h /\ j < w /\ p = (Whole (a + i), Whole (b + j)).
Proof.
  unfold window. intros (i & Hi & Hp)%in_flat_map.
  apply in_map_iff in Hp as (j & <- & Hj). apply in_seq in Hi, Hj.
  exists i, j. simpl. repeat split; lia.
Qed.

(** With six rows, or a perfect square of rows, every cell the validator
    reads lies in a row that exists. *)
Lemma scanned_rows_exist (size row col : nat) :
  size = 6 \/ Nat.sqrt size * Nat.sqrt size = size -> row < size ->
  Forall (fun p => exists r, p.1 = Whole r /\ r < size)
    (rowCells size row ++ colCells size col
       ++ (if size =? 6 then box6Cells row col else sqrtBoxCells size row col)).
Proof.
  intros Hsize Hrow. apply Forall_app. split; [|apply Forall_app; split].
  - apply Forall_map, Forall_forall. intros x _. simpl. eauto.
  - apply Forall_map, Forall_forall. intros x Hx%list_elem_of_In%in_seq. simpl.
    exists x. split; [done|lia].
  - apply Forall_forall. intros p Hp%list_elem_of_In.
    destruct (Nat.eqb_spec size 6) as [->|H6].
    + apply in_window in Hp as (i & j & Hi & Hj & ->). cbn [fst].
      eexists. split; [done|].
      pose proof (Nat.Div0.div_lt_upper_bound row 2 3 ltac:(lia)). lia.
    + destruct Hsize as [?|Hsq]; [done|]. unfold sqrtBoxCells in Hp.
      rewrite (proj2 (Nat.eqb_eq _ _) Hsq) in Hp.
      apply in_window in Hp as (i & j & Hi & Hj & ->). cbn [fst].
      eexists. split; [done|].
      assert (row / Nat.sqrt size < Nat.sqrt size)
        by (apply Nat.Div0.div_lt_upper_bound; lia).
      nia.
Qed.

Lemma isValidForGrid_returns (g : Grid) (row col : nat) (num : Z) :
  length g = 6 \/ Nat.sqrt (length g) * Nat.sqrt (length g) = length g ->
  row < length g ->
  exists b, isValidForGrid g row col num = Ret b.
Proof.
  intros Hsize Hrow. unfold isValidForGrid. rewrite checkPlacement_hit; [eauto|].
  pose proof (scanned_rows_exist (length g) row col Hsize Hrow) as H.
  rewrite Forall_forall in H. apply Forall_forall. intros [r c] Hp.
  destruct (H _ Hp) as (r' & Hr & Hlt). simpl in *. subst r.
  destruct (lookup_lt_is_Some_2 g r' Hlt) as [cells E].
  unfold readCell. rewrite E. destruct c as [c|]; [|done]. by destruct (cells !! c).
Qed.

Lemma solvePuzzleFuel_never_throws (fuel : nat) (g : Grid) :
  length g = 6 \/ Nat.sqrt (length g) * Nat.sqrt (length g) = length g ->
  forall g', solvePuzzleFuel fuel g <> Raised g'.
Proof.
  revert g. induction fuel as [|fuel IH]; intros g Hsize g'; simpl; [done|].
  destruct (firstEmpty g) as [[row col]|] eqn:E; [|done].
  apply firstEmpty_Some in E as (_ & Hrow & _).
  generalize (candidates (length g)). intros nums.
  assert (Hloop : forall g0, length g0 = length g ->
            tryValues (solvePuzzleFuel fuel) row col nums g0 <> Raised g').
  { induction nums as [|num rest IHn]; intros g0 Hl; simpl; [done|].
    destruct (isValidForGrid_returns g0 row col num) as [b Hb].
    { by rewrite Hl. }
    { by rewrite Hl. }
    rewrite Hb. destruct b; [|by apply IHn].
    destruct (solvePuzzleFuel fuel (writeCell g0 row col num)) as [[|] g1|g1|] eqn:E1; try done.
    - apply IHn. apply solvePuzzleFuel_restores in E1. subst g1.
      by rewrite !length_writeCell.
    - exfalso. apply (IH (writeCell g0 row col num)) with g1; [|exact E1].
      by rewrite length_writeCell, Hl. }
  by apply Hloop.
Qed.

(** X6. On a grid with six rows, or with a perfect square of rows, [solvePuzzle]
    never throws, whatever the rows contain and however long they are: it
    returns true or false, and the rows have kept their lengths. *)
Theorem solvePuzzle_never_throws (g : Grid) :
  length g = 6 \/ Nat.sqrt (length g) * Nat.sqrt (length g) = length g ->
  exists b g', solvePuzzle g = Done b g' /\ map length g' = map length g.
Proof.
  intros Hsize. pose proof (solvePuzzle_total g) as Hfuel.
  destruct (solvePuzzle g) as [b g'|g'|] eqn:E; [|exfalso|done].
  - exists b, g'. split; [done|]. by apply solvePuzzleFuel_dims in E.
  - by apply (solvePuzzleFuel_never_throws (S (zeros g)) g Hsize g').
Qed.

(** A ragged grid of nine rows. *)
Lemma solvePuzzle_never_throws_witness :
  let g := [[0; 1]; []; [2; 0; 0]; [0]; [5]; [0; 0]; [0; 7]; [1]; [0; 0; 0; 0]]%Z in
  (length g = 6 \/ Nat.sqrt (length g) * Nat.sqrt (length g) = length g) /\
  exists b g', solvePuzzle g = Done b g' /\ map length g' = map length g.
Proof.
  cbv zeta.
  assert (H : length [[0; 1]; []; [2; 0; 0]; [0]; [5]; [0; 0]; [0; 7]; [1]; [0; 0; 0; 0]]%Z = 6
              \/ Nat.sqrt (length [[0; 1]; []; [2; 0; 0]; [0]; [5]; [0; 0]; [0; 7]; [1];
                                    [0; 0; 0; 0]]%Z)
                  * Nat.sqrt (length [[0; 1]; []; [2; 0; 0]; [0]; [5]; [0; 0]; [0; 7]; [1];
                                      [0; 0; 0; 0]]%Z)
                 = length [[0; 1]; []; [2; 0; 0]; [0]; [5]; [0; 0]; [0; 7]; [1];
                           [0; 0; 0; 0]]%Z)
    by (right; reflexivity).
  split; [done|]. exact (solvePuzzle_never_throws _ H).
Defined.

(** X7. The solver decides whether a consistent grid of a supported size can be
    completed.  If it returns true, the final grid satisfies the validity
    invariant and extends the grid given.  If it returns false, the grid is
    as given and no valid grid extends it: the search is exhaustive. *)
Theorem solvePuzzle_decides (N : nat) (g : Grid) :
  supported N -> consistentb N g = true ->
  exists b g', solvePuzzle g = Done b g' /\
    (b = true -> sudokuValid N g' = true /\ agreesWith g g') /\
    (b = false -> g' = g /\ forall sol, sudokuValid N sol = true -> ~ agreesWith g sol).
Proof.
  intros HN Hc. apply consistentb_Consistent in Hc as Hcons.
  pose proof (supported_geometry N HN) as HG.
  destruct Hcons as (Hsh & Hrest).
  destruct (solvePuzzleFuel_returns N HN (S (zeros g)) g Hsh) as (b & g' & E); [lia|].
  exists b, g'. split; [done|]. split.
  - intros ->. destruct (solvePuzzleFuel_sound N HN _ g g' (conj Hsh Hrest) E) as [Hc' Hf'].
    split; [by apply consistent_full_valid|]. by apply solvePuzzleFuel_keeps in E.
  - intros ->. split; [by apply solvePuzzleFuel_restores in E|].
    intros sol Hv Hag. destruct (valid_consistent_full N sol HG Hv) as [Hsol Hfull].
    destruct (solvePuzzleFuel_complete N HN (S (zeros g)) g sol) as (g2 & E2); try done; [lia|].
    unfold solvePuzzle in E. congruence.
Qed.

Lemma solvePuzzle_decides_witness :
  supported 4 /\ consistentb 4 stuck4 = true /\
  exists b g', solvePuzzle stuck4 = Done b g' /\
    (b = true -> sudokuValid 4 g' = true /\ agreesWith stuck4 g') /\
    (b = false -> g' = stuck4 /\
       forall sol, sudokuValid 4 sol = true -> ~ agreesWith stuck4 sol).
Proof.
  assert (H : supported 4) by (by left).
  split; [done|]. split; [reflexivity|].
  apply (solvePuzzle_decides 4 stuck4 H). reflexivity.
Defined.

(** ** Grid filler: failure, pre-filled cells, and the role of the clock *)

(** X8. A failed attempt leaves [this.grid], the size, the stored solution and
    the console as they were, for every state of the generator. *)
Theorem fillGrid_false_restores (s s' : State) :
  fillGrid s = Done false s' -> this_grid s' = this_grid s /\ Frame s s'.
Proof.
  intros E.
  change (fillGrid s) with
    (fillGridRecursive (fillFuel (this_size s)) 0 0 (clock s (ticks s)) 5000 (dateNow s).2) in E.
  split.
  - by apply fillGridRecursive_restores in E.
  - apply fillGridRecursive_frame in E. eapply Frame_trans; [|exact E]. by repeat split.
Qed.

Lemma fillGrid_false_restores_witness :
  let s := setSize 4 (newGenerator slowClock zeroRandom) in
  fillGrid s = Done false (dateNow (dateNow s).2).2 /\
  this_grid (dateNow (dateNow s).2).2 = this_grid s /\ Frame s (dateNow (dateNow s).2).2.
Proof.
  cbv zeta. split; [by vm_compute|].
  apply (fillGrid_false_restores (setSize 4 (newGenerator slowClock zeroRandom))).
  by vm_compute.
Defined.

(** X9. The filler steps over cells that are already filled.  Started on a
    consistent grid of a supported size it returns; a success leaves a grid
    that satisfies the validity invariant and has kept the cells that were
    filled; a failure leaves the grid as it was. *)
Theorem fillGrid_keeps_prefilled (N : nat) (s : State) :
  supported N -> SetUp N s -> consistentb N (this_grid s) = true ->
  exists b s', fillGrid s = Done b s' /\
    (b = true -> sudokuValid N (this_grid s') = true /\
                 agreesWith (this_grid s) (this_grid s')) /\
    (b = false -> this_grid s' = this_grid s).
Proof.
  intros HN Hset Hc. apply consistentb_Consistent in Hc.
  unfold fillGrid. after_dateNow s s1 HF1 Hg1.
  assert (Hset1 : SetUp N s1) by (by apply (SetUp_Frame N s)).
  destruct (fillGridRecursive_spec N HN (fillFuel (this_size s1)) 0 0
              (clock s (ticks s)) 5000 s1) as (b & s' & E & HF & Hfalse & Htrue);
    [done|by rewrite Hg1|lia|lia|done| |].
  - destruct Hset1 as [-> _]. unfold fuelNeeded, fillFuel. lia.
  - rewrite Hg1 in Hfalse, Htrue. exists b, s'. split; [done|]. split; [|done].
    intros Hb. destruct (Htrue Hb) as (Hcons & Hkeep & Hfull). split; [|done].
    apply consistent_full_valid; [by apply supported_geometry|done|].
    intros r c Hz. apply (Hfull r c); [| |unfold cursor; lia|done].
    + apply (cell_is_Some N _ r c (proj1 Hcons)). by exists 0%Z.
    + apply (cell_is_Some N _ r c (proj1 Hcons)). by exists 0%Z.
Qed.

Lemma fillGrid_keeps_prefilled_witness :
  supported 4 /\ SetUp 4 (generatorWith puzzle4) /\
  consistentb 4 (this_grid (generatorWith puzzle4)) = true /\
  exists b s', fillGrid (generatorWith puzzle4) = Done b s' /\
    (b = true -> sudokuValid 4 (this_grid s') = true /\
                 agreesWith (this_grid (generatorWith puzzle4)) (this_grid s')) /\
    (b = false -> this_grid s' = this_grid (generatorWith puzzle4)).
Proof.
  assert (H : supported 4) by (by left).
  assert (Hset : SetUp 4 (generatorWith puzzle4)) by (split; reflexivity).
  split; [done|]. split; [done|]. split; [reflexivity|].
  apply (fillGrid_keeps_prefilled 4 (generatorWith puzzle4) H Hset). reflexivity.
Defined.

Lemma valid_grid_exists (N : nat) : supported N -> exists sol, sudokuValid N sol = true.
Proof.
  intros [-> | [-> | ->]].
  - exists (fallbackGrid 4). by vm_compute.
  - exists sample6. by vm_compute.
  - exists (fallbackGrid 9). by vm_compute.
Qed.

Section FillComplete.
Variable N : nat.
Hypothesis HN : supported N.
Variable sol : Grid.
Hypothesis Hsol : Consistent N sol.
Hypothesis Hfull : forall r c, cell sol r c <> Some 0%Z.
Variables startTime timeout : Z.
Variable clk : nat -> Z.
Hypothesis Hclk : forall k, (clk k - startTime <= timeout)%Z.

(** The value of a solution at an empty cell passes the validator. *)
Lemma solution_value_fits (g : Grid) (row col : nat) (v : Z) :
  agreesWith g sol -> (row, col) ∈ allCells N ->
  cell g row col = Some 0%Z -> cell sol row col = Some v ->
  existsb (holds g v) (peers N (row, col)) = false.
Proof.
  intros Hagree Hp Hz Hv. apply not_true_iff_false.
  intros He. apply existsb_exists in He as (q & Hq & Hh).
  apply list_elem_of_In in Hq. unfold holds in Hh.
  destruct (cell g q.1 q.2) as [w|] eqn:Hcq; [|done]. apply Z.eqb_eq in Hh. subst w.
  assert (Hv0 : v <> 0%Z) by (intros ->; by apply (Hfull row col)).
  destruct Hsol as (_ & _ & Hcl). apply Hv0.
  apply (Hcl (row, col) q v); [done|done| |done|by apply Hagree].
  intros ->. simpl in Hcq. congruence.
Qed.

Section Loop.
Variable rec : State -> run State bool.
Variables row col : nat.
Hypothesis Hp : (row, col) ∈ allCells N.
Hypothesis rec_spec : forall s, SetUp N s -> Consistent N (this_grid s) ->
  exists b s', rec s = Done b s' /\ FillPost N row (col + 1) s b s'.
Hypothesis rec_complete : forall s, SetUp N s -> clock s = clk ->
  Consistent N (this_grid s) -> agreesWith (this_grid s) sol ->
  exists s', rec s = Done true s'.

Lemma tryNumbers_complete (numbers : list Z) (s : State) (v : Z) :
  SetUp N s -> clock s = clk -> Consistent N (this_grid s) ->
  agreesWith (this_grid s) sol ->
  cell (this_grid s) row col = Some 0%Z -> cell sol row col = Some v ->
  v ∈ numbers -> (forall w, w ∈ numbers -> (1 <= w <= Z.of_nat N)%Z) ->
  exists s', tryNumbers rec row col numbers s = Done true s'.
Proof.
  revert s. induction numbers as [|num rest IH];
    intros s Hset Hck Hcons Hagree Hz Hv Hin Hrg; [by apply elem_of_nil in Hin|].
  assert (Hrest : forall w, w ∈ rest -> (1 <= w <= Z.of_nat N)%Z)
    by (intros; apply Hrg; by right).
  assert (Hnum : (1 <= num <= Z.of_nat N)%Z) by (apply Hrg; by left).
  assert (Hlen : length (this_grid s) = N)
    by (by destruct Hcons as [[? _]%hasShape_spec _]).
  pose proof (solution_value_fits (this_grid s) row col v Hagree Hp Hz Hv) as Hfits.
  cbn [tryNumbers].
  rewrite (isValid_isValidForGrid N) by done.
  rewrite (isValidForGrid_peers N) by done.
  destruct (existsb (holds (this_grid s) num) (peers N (row, col))) eqn:Habs; simpl.
  - apply IH; try done. apply elem_of_cons in Hin as [->|Hin]; [congruence|done].
  - set (s1 := withGrid (writeCell (this_grid s) row col num) s).
    assert (HF1 : Frame s s1) by (by repeat split).
    assert (Hset1 : SetUp N s1) by (by apply (SetUp_Frame N s)).
    assert (Hcons1 : Consistent N (this_grid s1)).
    { apply (place_consistent N (this_grid s) (row, col) num);
        auto using supported_geometry with lia. }
    destruct (decide (num = v)) as [->|Hne].
    + destruct (rec_complete s1) as (s' & E); [done|done|done| |].
      * intros r c w Hc Hw. simpl in Hc.
        apply cell_writeCell in Hc as [[[= <- <-] ->]|[_ Hc]]; [done|]. by apply Hagree.
      * rewrite E. eauto.
    + destruct (rec_spec s1 Hset1 Hcons1) as (b & s2 & E & HF2 & Hfalse & _).
      rewrite E. destruct b; [eauto|]. specialize (Hfalse eq_refl). simpl in Hfalse.
      set (s3 := withGrid (writeCell (this_grid s2) row col 0) s2).
      assert (Hg3 : this_grid s3 = this_grid s).
      { simpl. rewrite Hfalse. by apply writeCell_undo. }
      assert (HF3 : Frame s s3).
      { eapply Frame_trans; [exact HF1|]. eapply Frame_trans; [exact HF2|]. by repeat split. }
      apply IH; try (by rewrite Hg3); try done.
      * by apply (SetUp_Frame N s).
      * destruct HF3 as (_ & _ & _ & -> & _). done.
      * apply elem_of_cons in Hin as [->|Hin]; [congruence|done].
Qed.
End Loop.

(** Without a timeout the filler succeeds on every consistent grid that some
    solution extends. *)
Lemma fillGridRecursive_complete (fuel row col : nat) (s : State) :
  SetUp N s -> clock s = clk -> Consistent N (this_grid s) ->
  agreesWith (this_grid s) sol ->
  row <= N -> col <= N -> (row = N -> col = 0) -> fuelNeeded N row col <= fuel ->
  exists s', fillGridRecursive fuel row col startTime timeout s = Done true s'.
Proof.
  revert row col s.
  induction fuel as [|fuel IH];
    intros row col s Hset Hck Hcons Hagree Hrow Hcol Hlast Hfuel.
  { exfalso. unfold fuelNeeded in Hfuel. destruct HN as [-> | [-> | ->]]; lia. }
  cbn [fillGridRecursive]. after_dateNow s s1 HF1 Hg1.
  assert (Hset1 : SetUp N s1) by (by apply (SetUp_Frame N s)).
  assert (Hsize : this_size s1 = N) by (by destruct Hset1).
  assert (Hck1 : clock s1 = clk) by (destruct HF1 as (_ & _ & _ & -> & _); done).
  rewrite Hck. destruct (Z.gtb_spec (clk (ticks s) - startTime) timeout) as [Hgt|_].
  { specialize (Hclk (ticks s)). lia. }
  rewrite Hsize. destruct (Nat.eqb_spec row N) as [->|Hrow']; [eauto|].
  destruct (Nat.eqb_spec col N) as [->|Hcol'].
  { apply IH; [done|done|by rewrite Hg1|by rewrite Hg1|lia|lia|lia|].
    unfold fuelNeeded in *. destruct HN as [-> | [-> | ->]]; lia. }
  assert (Hp : (row, col) ∈ allCells N) by (apply elem_of_allCells; lia).
  assert (Hsh : hasShape N (this_grid s) = true) by (by destruct Hcons).
  destruct (readCell_inside N (this_grid s) row col Hsh Hp) as (v & Hread & Hcell).
  rewrite Hg1, Hread.
  assert (Hfuel' : fuelNeeded N row (col + 1) <= fuel).
  { unfold fuelNeeded in *. destruct HN as [-> | [-> | ->]]; lia. }
  destruct (Z.eqb_spec v 0) as [->|Hv].
  - destruct (shuffleArray_spec (oneToSize N) s1) as (Hperm & HF2 & Hg2 & _).
    destruct (shuffleArray (oneToSize N) s1) as [numbers s2] eqn:Esh. simpl in *.
    destruct (proj2 (cell_is_Some N sol row col (proj1 Hsol))) as [w Hw].
    { by apply elem_of_allCells. }
    apply (tryNumbers_complete (fillGridRecursive fuel row (col + 1) startTime timeout)
             row col Hp) with (v := w).
    + intros s0 Hset0 Hcons0.
      apply (fillGridRecursive_spec N HN); [done|done|lia|lia|lia|done].
    + intros s0 Hset0 Hck0 Hcons0 Hag0. apply IH; [done|done|done|done|lia|lia|lia|done].
    + by apply (SetUp_Frame N s1).
    + destruct HF2 as (_ & _ & _ & -> & _). done.
    + by rewrite Hg2, Hg1.
    + by rewrite Hg2, Hg1.
    + by rewrite Hg2, Hg1.
    + done.
    + rewrite Hperm. unfold oneToSize. apply list_elem_of_In, in_map_iff.
      destruct Hsol as (_ & Hrg & _). pose proof (Hrg _ _ _ Hw).
      assert (w <> 0%Z) by (intros ->; by apply (Hfull row col)).
      exists (Z.to_nat w - 1). split; [lia|]. apply in_seq. lia.
    + intros x Hx. apply oneToSize_range. by rewrite <- Hperm.
  - apply IH; [done|done|by rewrite Hg1|by rewrite Hg1|lia|lia|lia|done].
Qed.
End FillComplete.

(** X10. When no clock reading of an attempt is more than 5000 ms after its
    start, the search cannot fail: [generateComplete] succeeds at the first
    attempt, logs that success and nothing else, and returns a grid that
    satisfies the validity invariant.  The later attempts and the fallback are
    reached through timeouts only. *)
Theorem generateComplete_without_timeout (N : nat) (s : State) :
  supported N -> SetUp N s ->
  (forall k, (clock s k - clock s (ticks s) <= 5000)%Z) ->
  exists g s', generateComplete s = Done g s' /\
    sudokuValid N g = true /\ this_grid s' = g /\ this_solution s' = g /\
    console s' = console s ++ [LogSuccess N 1].
Proof.
  intros HN Hset Hclk. pose proof (supported_geometry N HN) as HG.
  destruct (valid_grid_exists N HN) as (sol & Hv).
  destruct (valid_consistent_full N sol HG Hv) as [Hsol Hfull].
  unfold generateComplete. cbn [attemptLoop].
  set (s0 := withGrid (emptyGrid (this_size s)) s).
  assert (Hset0 : SetUp N s0) by done.
  assert (Hg0 : this_grid s0 = emptyGrid N) by (simpl; by destruct Hset as [-> _]).
  destruct (fillGrid_spec N HN s0 Hset0 Hg0) as (b & s2 & E & HF & _ & Htrue).
  assert (Hb : b = true).
  { revert E. unfold fillGrid. after_dateNow s0 s1 HF1 Hg1. intros E.
    destruct (fillGridRecursive_complete N HN sol Hsol Hfull (clock s (ticks s)) 5000
                (clock s) Hclk (fillFuel (this_size s1)) 0 0 s1) as (s3 & E3).
    - by apply (SetUp_Frame N s0).
    - destruct HF1 as (_ & _ & _ & -> & _). done.
    - rewrite Hg1, Hg0. apply emptyGrid_consistent.
    - rewrite Hg1, Hg0. intros r c v Hc Hv0. by apply cell_emptyGrid in Hc.
    - lia.
    - lia.
    - done.
    - destruct (SetUp_Frame N s0 s1 HF1 Hset0) as [-> _]. unfold fuelNeeded, fillFuel. lia.
    - change (clock s0 (ticks s0)) with (clock s (ticks s)) in E. congruence. }
  subst b. rewrite E. eexists _, _. split; [done|]. split; [by apply Htrue|].
  split; [done|]. split; [done|]. simpl.
  destruct HF as (Hsz & _ & _ & _ & _ & Hcon). rewrite Hcon, Hsz. simpl.
  by destruct Hset as [-> _].
Qed.

Lemma generateComplete_without_timeout_witness :
  let s := setSize 6 (newGenerator frozenClock (lcgRandom 3)) in
  supported 6 /\ SetUp 6 s /\
  (forall k, (clock s k - clock s (ticks s) <= 5000)%Z) /\
  exists g s', generateComplete s = Done g s' /\
    sudokuValid 6 g = true /\ this_grid s' = g /\ this_solution s' = g /\
    console s' = console s ++ [LogSuccess 6 1].
Proof.
  cbv zeta.
  assert (H : supported 6) by (right; by left).
  assert (Hset : SetUp 6 (setSize 6 (newGenerator frozenClock (lcgRandom 3))))
    by (split; reflexivity).
  assert (Hclk : forall k, (clock (setSize 6 (newGenerator frozenClock (lcgRandom 3))) k
                            - clock (setSize 6 (newGenerator frozenClock (lcgRandom 3)))
                                (ticks (setSize 6 (newGenerator frozenClock (lcgRandom 3))))
                            <= 5000)%Z).
  { intros k. simpl. unfold frozenClock. lia. }
  split; [done|]. split; [done|]. split; [done|].
  exact (generateComplete_without_timeout 6 _ H Hset Hclk).
Defined.

(** ** generateComplete: what it returns and what it logs *)

Lemma attemptLoop_log (N : nat) (remaining attempts maxAttempts : nat) (s : State) :
  supported N -> SetUp N s -> this_grid s = emptyGrid N ->
  exists g s', attemptLoop remaining attempts maxAttempts s = Done g s' /\
    hasShape N g = true /\ complete g = true /\
    this_grid s' = g /\ this_solution s' = g /\ this_size s' = N /\
    ((exists k, k < remaining /\
        console s' = console s ++ map LogRetry (seq (attempts + 1) k)
                       ++ [LogSuccess N (attempts + k + 1)] /\
        sudokuValid N g = true) \/
     (console s' = console s ++ map LogRetry (seq (attempts + 1) remaining)
                     ++ [LogFallback maxAttempts] /\
      g = fallbackGrid N)).
Proof.
  intros HN. pose proof (supported_geometry N HN) as HG.
  revert attempts s. induction remaining as [|remaining IH]; intros attempts s Hset Hg.
  - cbn [attemptLoop]. set (s1 := consoleLog (LogFallback maxAttempts) s).
    assert (Hfb : this_grid (createFallbackGrid s1) = fallbackGrid N)
      by (by apply createFallbackGrid_grid).
    destruct (fallbackGrid_full N HN) as [Hsh Hfull].
    exists (fallbackGrid N),
      (withSolution (this_grid (createFallbackGrid s1)) (createFallbackGrid s1)).
    split; [by rewrite <- Hfb|]. split; [done|]. split; [done|].
    split; [exact Hfb|]. split; [exact Hfb|]. split; [by destruct Hset|]. by right.
  - cbn [attemptLoop].
    destruct (fillGrid_spec N HN (withGrid (emptyGrid (this_size s)) s))
      as (b & s2 & E & HF & Hfalse & Htrue).
    { done. }
    { simpl. by destruct Hset as [-> _]. }
    rewrite E. assert (Hset2 : SetUp N s2) by (by apply (SetUp_Frame N _ _ HF)).
    destruct HF as (_ & _ & _ & _ & _ & Hcon). simpl in Hcon. destruct b.
    + specialize (Htrue eq_refl).
      destruct (valid_consistent_full N _ HG Htrue) as [(Hsh & _) Hfull].
      eexists _, _. split; [done|]. split; [done|]. split; [by apply complete_spec|].
      split; [done|]. split; [done|]. split; [by destruct Hset2|].
      left. exists 0. split; [lia|]. split; [|done]. simpl. rewrite Hcon.
      destruct Hset2 as [-> _]. by rewrite Nat.add_0_r.
    + destruct (IH (attempts + 1) (consoleLog (LogRetry (attempts + 1)) s2))
        as (g & s' & E' & H1 & H2 & H3 & H4 & H5 & H6); [done|by apply Hfalse|].
      exists g, s'. split; [done|]. split; [done|]. split; [done|]. split; [done|].
      split; [done|]. split; [done|]. simpl in H6. rewrite Hcon in H6.
      destruct H6 as [(k & Hk & Hlog & Hv)|[Hlog Hfb]].
      * left. exists (S k). split; [lia|]. split; [|done].
        replace (attempts + 1 + 1) with (S (attempts + 1)) in Hlog by lia.
        replace (attempts + 1 + k + 1) with (attempts + S k + 1) in Hlog by lia.
        rewrite Hlog. simpl. by rewrite <- !app_assoc.
      * right. split; [|done].
        replace (attempts + 1 + 1) with (S (attempts + 1)) in Hlog by lia.
        rewrite Hlog. simpl. by rewrite <- !app_assoc.
Qed.

(** X11. For a supported size, [generateComplete] always returns a grid of [N]
    rows of [N] cells without a zero, stored both as [this.grid] and as
    [this.solution].  It makes at most ten attempts: the console receives one
    retry entry per failed attempt and then either the success entry with the
    number of the attempt, the grid being valid, or after ten retries the
    fallback entry, the grid being the fallback grid. *)
Theorem generateComplete_outcome (N : nat) (s : State) :
  supported N -> SetUp N s ->
  exists g s', generateComplete s = Done g s' /\
    hasShape N g = true /\ complete g = true /\
    this_grid s' = g /\ this_solution s' = g /\ this_size s' = N /\
    ((exists k, k < 10 /\
        console s' = console s ++ map LogRetry (seq 1 k) ++ [LogSuccess N (k + 1)] /\
        sudokuValid N g = true) \/
     (console s' = console s ++ map LogRetry (seq 1 10) ++ [LogFallback 10] /\
      g = fallbackGrid N)).
Proof.
  intros HN Hset.
  change (generateComplete s)
    with (attemptLoop 10 0 10 (withGrid (emptyGrid (this_size s)) s)).
  apply (attemptLoop_log N 10 0 10 (withGrid (emptyGrid (this_size s)) s) HN); [done|].
  simpl. by destruct Hset as [-> _].
Qed.

Lemma generateComplete_outcome_witness :
  supported 6 /\ SetUp 6 slowGenerator6 /\
  exists g s', generateComplete slowGenerator6 = Done g s' /\
    hasShape 6 g = true /\ complete g = true /\
    this_grid s' = g /\ this_solution s' = g /\ this_size s' = 6 /\
    ((exists k, k < 10 /\
        console s' = console slowGenerator6 ++ map LogRetry (seq 1 k)
                       ++ [LogSuccess 6 (k + 1)] /\
        sudokuValid 6 g = true) \/
     (console s' = console slowGenerator6 ++ map LogRetry (seq 1 10) ++ [LogFallback 10] /\
      g = fallbackGrid 6)).
Proof.
  assert (H : supported 6) by (right; by left).
  assert (Hset : SetUp 6 slowGenerator6) by (split; reflexivity).
  split; [done|]. split; [done|].
  exact (generateComplete_outcome 6 slowGenerator6 H Hset).
Defined.

(** ** createFallbackGrid *)

Lemma cell_foldl_write (N : nat) (f : nat * nat -> Z) (ps : list (nat * nat))
  (g : Grid) (r c : nat) :
  hasShape N g = true -> (r, c) ∈ allCells N ->
  cell (foldl (fun g p => writeCell g p.1 p.2 (f p)) g ps) r c
  = if decide ((r, c) ∈ ps) then Some (f (r, c)) else cell g r c.
Proof.
  intros Hsh Hin. revert g Hsh. induction ps as [|p ps IH]; intros g Hsh; cbn [foldl].
  - rewrite decide_False; [done|]. apply not_elem_of_nil.
  - rewrite IH by (by apply hasShape_writeCell).
    destruct (decide ((r, c) ∈ ps)) as [Hps|Hps].
    + rewrite decide_True; [done|]. by right.
    + destruct (decide (p = (r, c))) as [->|Hne].
      * rewrite decide_True by (by left). simpl. apply cell_writeCell_eq.
        apply (cell_is_Some N g r c Hsh). by apply elem_of_allCells.
      * rewrite decide_False.
        -- apply cell_writeCell_ne. destruct p. simpl. congruence.
        -- intros [?|?]%elem_of_cons; congruence.
Qed.

Lemma hasShape_foldl_write (N : nat) (f : nat * nat -> Z) (ps : list (nat * nat)) (g : Grid) :
  hasShape N g = true ->
  hasShape N (foldl (fun g p => writeCell g p.1 p.2 (f p)) g ps) = true.
Proof.
  revert g. induction ps as [|p ps IH]; intros g Hsh; [done|]. simpl.
  by apply IH, hasShape_writeCell.
Qed.

Lemma shift_mod_inj (N k c1 c2 : nat) :
  c1 < N -> c2 < N -> (k + c1) mod N = (k + c2) mod N -> c1 = c2.
Proof.
  intros H1 H2 Heq.
  pose proof (Nat.div_mod_eq (k + c1) N) as E1.
  pose proof (Nat.div_mod_eq (k + c2) N) as E2. rewrite Heq in E1.
  set (q1 := (k + c1) / N) in *. set (q2 := (k + c2) / N) in *.
  set (m := (k + c2) mod N) in *.
  destruct (lt_eq_lt_dec q1 q2) as [[Hlt|Heq']|Hgt]; [nia|subst; lia|nia].
Qed.

(** X12. [createFallbackGrid] overwrites every cell with the value of its formula,
    whatever the grid held before, and each row of the result holds each of
    [1..size] exactly once, for every size and every whole box size.  (The
    columns and boxes need not: size 6.) *)
Theorem createFallbackGrid_rows (N b : nat) (s : State) :
  this_size s = N -> this_boxSize s = b -> 1 <= b -> hasShape N (this_grid s) = true ->
  hasShape N (this_grid (createFallbackGrid s)) = true /\
  complete (this_grid (createFallbackGrid s)) = true /\
  (forall row col, row < N -> col < N ->
     cell (this_grid (createFallbackGrid s)) row col
     = Some (Z.of_nat ((row * b + row / b + col) mod N + 1))) /\
  (forall row, row < N ->
     eachOnce N (valuesAt (this_grid (createFallbackGrid s)) (rowUnit N row)) = true).
Proof.
  intros Hs Hb Hb1 Hsh. unfold createFallbackGrid. simpl. rewrite Hs, Hb.
  set (f := fun p : nat * nat => fallbackValue N b p.1 p.2).
  set (g' := foldl (fun g p => writeCell g p.1 p.2 (f p)) (this_grid s) (allCells N)).
  change (foldl _ (this_grid s) (allCells N)) with g'.
  assert (Hsh' : hasShape N g' = true) by (by apply hasShape_foldl_write).
  assert (Hcell : forall row col, row < N -> col < N ->
            cell g' row col = Some (fallbackValue N b row col)).
  { intros row col Hr Hc. unfold g'.
    rewrite (cell_foldl_write N f) by (try done; by apply elem_of_allCells).
    rewrite decide_True; [done|]. by apply elem_of_allCells. }
  split; [done|]. split; [|split; [done|]].
  - apply complete_spec. intros r c Hz.
    assert (Hin : r < N /\ c < N) by (apply (cell_is_Some N g' r c Hsh'); by exists 0%Z).
    rewrite Hcell in Hz by lia. unfold fallbackValue in Hz. injection Hz. lia.
  - intros row Hrow.
    assert (Hvals : valuesAt g' (rowUnit N row)
                    = map (fun col => Some (fallbackValue N b row col)) (seq 0 N)).
    { unfold valuesAt, rowUnit. rewrite map_map. apply map_ext_in.
      intros col Hcol%in_seq. simpl. apply Hcell; lia. }
    rewrite Hvals. apply eachOnce_intro.
    + by rewrite length_map, length_seq.
    + apply (NoDup_fmap_2_strong (fun col => Some (fallbackValue N b row col))).
      * intros c1 c2 H1%list_elem_of_In%in_seq H2%list_elem_of_In%in_seq [= Heq].
        unfold fallbackValue in Heq.
        apply (shift_mod_inj N (row * b + row / b) c1 c2); lia.
      * apply NoDup_ListNoDup, seq_NoDup.
    + intros o Ho. apply list_elem_of_In, in_map_iff in Ho as (col & <- & Hcol%in_seq).
      eexists. split; [done|]. unfold fallbackValue.
      pose proof (Nat.mod_upper_bound (row * b + row / b + col) N). lia.
Qed.

Lemma createFallbackGrid_rows_witness :
  let s := generatorWith allOnes4 in
  this_size s = 4 /\ this_boxSize s = 2 /\ 1 <= 2 /\ hasShape 4 (this_grid s) = true /\
  hasShape 4 (this_grid (createFallbackGrid s)) = true /\
  complete (this_grid (createFallbackGrid s)) = true /\
  (forall row col, row < 4 -> col < 4 ->
     cell (this_grid (createFallbackGrid s)) row col
     = Some (Z.of_nat ((row * 2 + row / 2 + col) mod 4 + 1))) /\
  (forall row, row < 4 ->
     eachOnce 4 (valuesAt (this_grid (createFallbackGrid s)) (rowUnit 4 row)) = true).
Proof.
  cbv zeta. split; [reflexivity|]. split; [reflexivity|]. split; [lia|].
  split; [reflexivity|].
  apply (createFallbackGrid_rows 4 2 (generatorWith allOnes4)); [reflexivity..|lia|reflexivity].
Defined.

(** ** generatePuzzle: the object after the call *)

Lemma cellsToRemove_bounds (N difficulty : nat) :
  supported N ->
  0 < Nat.min (cellsToRemove (N * N) (percentage difficulty)) (N * N) < N * N.
Proof.
  intros [-> | [-> | ->]];
    do 6 (try destruct difficulty as [|difficulty]); vm_compute; lia.
Qed.

(** X13. For a supported size, [generatePuzzle] carves a copy: afterwards
    [this.grid] and [this.solution] both hold the complete solution that is
    returned, and the size is the one asked for.  The puzzle has the shape of
    the solution, at least one empty cell and at least one given. *)
Theorem generatePuzzle_carves_a_copy (N difficulty : nat) (s : State) :
  supported N ->
  exists puzzle sol s',
    generatePuzzle difficulty N s = Done (puzzle, sol) s' /\
    this_grid s' = sol /\ this_solution s' = sol /\ this_size s' = N /\
    complete sol = true /\ hasShape N sol = true /\ hasShape N puzzle = true /\
    0 < zeros puzzle < N * N.
Proof.
  intros HN. unfold generatePuzzle.
  change (generateComplete (setSize N s)) with (attemptLoop 10 0 10 (setSize N s)).
  destruct (attemptLoop_log N 10 0 10 (setSize N s) HN (SetUp_setSize N s) eq_refl)
    as (g & s2 & E & Hsh & Hfull & Hg & Hsol & Hsz & _).
  rewrite E. destruct (shuffleArray_spec (allCells N) s2) as (Hperm & HF & Hg3 & _).
  destruct (shuffleArray (allCells N) s2) as [ps s3]. simpl in Hperm, HF, Hg3.
  destruct HF as (Hsz3 & _ & Hsol3 & _).
  eexists _, _, _. split; [done|]. rewrite Hg3, Hsol3, Hsz3, Hg, Hsol.
  split; [done|]. split; [done|]. split; [done|]. split; [done|]. split; [done|].
  split; [by apply removeCells_shape|].
  rewrite (removeCells_zeros N) by done. by apply cellsToRemove_bounds.
Qed.

Lemma generatePuzzle_carves_a_copy_witness :
  supported 9 /\
  exists puzzle sol s',
    generatePuzzle 5 9 (newGenerator frozenClock (lcgRandom 7)) = Done (puzzle, sol) s' /\
    this_grid s' = sol /\ this_solution s' = sol /\ this_size s' = 9 /\
    complete sol = true /\ hasShape 9 sol = true /\ hasShape 9 puzzle = true /\
    0 < zeros puzzle < 9 * 9.
Proof.
  assert (H : supported 9) by (right; by right).
  split; [done|].
  exact (generatePuzzle_carves_a_copy 9 5 (newGenerator frozenClock (lcgRandom 7)) H).
Defined.

(** ** getHint and the assignment its caller makes *)

Lemma grid_ext (N : nat) (g1 g2 : Grid) :
  hasShape N g1 = true -> hasShape N g2 = true ->
  (forall r c, cell g1 r c = cell g2 r c) -> g1 = g2.
Proof.
  intros H1 H2 Hcell. apply list_eq. intros r.
  apply hasShape_spec in H1 as [Hl1 Hr1]. apply hasShape_spec in H2 as [Hl2 Hr2].
  destruct (decide (r < N)) as [Hr|Hr].
  - destruct (lookup_lt_is_Some_2 g1 r) as [cells1 E1]; [lia|].
    destruct (lookup_lt_is_Some_2 g2 r) as [cells2 E2]; [lia|].
    rewrite E1, E2. f_equal. apply list_eq. intros c.
    specialize (Hcell r c). unfold cell in Hcell. by rewrite E1, E2 in Hcell.
  - rewrite !(proj2 (lookup_ge_None _ _)) by lia. done.
Qed.

(** The two ways [getHint] ends on grids of the same shape. *)
Lemma getHint_cases (N : nat) (h : HintState) :
  hasShape N (currentGrid h) = true -> hasShape N (solutionGrid h) = true ->
  (getHint h = Done None h /\ forall r c, cell (currentGrid h) r c <> Some 0%Z) \/
  (exists row col v,
     getHint h = Done (Some {| hintRow := row; hintCol := col; hintValue := Some v |})
                   {| currentGrid := currentGrid h; solutionGrid := solutionGrid h;
                      generator := (mathRandom (generator h)).2 |} /\
     cell (currentGrid h) row col = Some 0%Z /\ cell (solutionGrid h) row col = Some v).
Proof.
  intros Hcur Hsol. unfold getHint.
  apply hasShape_spec in Hcur as Hl. destruct Hl as [Hl _]. rewrite Hl.
  set (emptyCells := List.filter (isEmptyAt (currentGrid h)) (allCells N)).
  assert (Hempty : forall row col, (row, col) ∈ emptyCells <->
            cell (currentGrid h) row col = Some 0%Z).
  { intros row col. unfold emptyCells.
    rewrite list_elem_of_In, filter_In, isEmptyAt_cell. simpl. split; [by intros [_ ?]|].
    intros Hc. split; [|done]. apply list_elem_of_In, elem_of_allCells.
    apply (cell_is_Some N _ row col Hcur). by exists 0%Z. }
  destruct (Nat.eqb_spec (length emptyCells) 0) as [Hnil|Hcons].
  - left. split; [done|]. intros row col Hc. apply Hempty in Hc.
    apply length_zero_iff_nil in Hnil. rewrite Hnil in Hc. by apply elem_of_nil in Hc.
  - right. cbn [mathRandom].
    set (randomIndex := floorScale (random (generator h) (draws (generator h)))
                          (length emptyCells)).
    assert (Hidx : randomIndex < length emptyCells) by (apply floorScale_lt; lia).
    destruct (lookup_lt_is_Some_2 emptyCells randomIndex Hidx) as [[row col] Hp].
    rewrite Hp. apply list_elem_of_lookup_2, Hempty in Hp as Hzero.
    destruct (proj2 (cell_is_Some N _ row col Hsol)) as [v Hv].
    { apply (cell_is_Some N _ row col Hcur). by exists 0%Z. }
    apply readCell_cell in Hv as Hread. rewrite Hread. by exists row, col, v.
Qed.

(** X14. On a grid that agrees with a complete solution of the same shape, a hint
    that is applied ([currentGrid[row][col] = value], as [giveHint] does)
    fills one empty cell and keeps the agreement, and one random number has
    been drawn.  When [getHint] returns null the grid is the solution and no
    random number has been drawn.  So as many hints as there are empty cells
    turn the puzzle into its solution. *)
Theorem hint_applied (N : nat) (h : HintState) :
  hasShape N (currentGrid h) = true -> hasShape N (solutionGrid h) = true ->
  complete (solutionGrid h) = true -> agreesWith (currentGrid h) (solutionGrid h) ->
  exists r h', getHint h = Done r h' /\
    match r with
    | None =>
        currentGrid h = solutionGrid h /\ draws (generator h') = draws (generator h)
    | Some hint =>
        exists v, hintValue hint = Some v /\
          agreesWith (writeCell (currentGrid h) (hintRow hint) (hintCol hint) v)
            (solutionGrid h) /\
          hasShape N (writeCell (currentGrid h) (hintRow hint) (hintCol hint) v) = true /\
          zeros (currentGrid h)
          = S (zeros (writeCell (currentGrid h) (hintRow hint) (hintCol hint) v)) /\
          draws (generator h') = S (draws (generator h))
    end.
Proof.
  intros Hcur Hsol Hfull Hagree.
  destruct (getHint_cases N h Hcur Hsol) as [[E Hnz]|(row & col & v & E & Hz & Hv)].
  - exists None, h. split; [done|]. split; [|done].
    apply (grid_ext N); [done..|]. intros r c.
    destruct (cell (currentGrid h) r c) as [w|] eqn:Hc.
    + symmetry. apply Hagree; [done|]. intros ->. by apply (Hnz r c).
    + destruct (cell (solutionGrid h) r c) as [w|] eqn:Hs; [|done].
      assert (His : is_Some (cell (currentGrid h) r c)).
      { apply (cell_is_Some N _ r c Hcur), (cell_is_Some N _ r c Hsol). by exists w. }
      rewrite Hc in His. by destruct His.
  - eexists _, _. split; [exact E|]. exists v. simpl. split; [done|].
    assert (Hv0 : v <> 0%Z).
    { intros ->. by apply (proj1 (complete_spec _) Hfull row col). }
    split; [|split; [by apply hasShape_writeCell|split; [by apply zeros_fill|done]]].
    intros r c w Hc Hw. apply cell_writeCell in Hc as [[[= <- <-] ->]|[_ Hc]]; [done|].
    by apply Hagree.
Qed.

Lemma hint_applied_witness :
  let h := {| currentGrid := puzzle4; solutionGrid := solved4;
              generator := newGenerator frozenClock (lcgRandom 2) |} in
  hasShape 4 (currentGrid h) = true /\ hasShape 4 (solutionGrid h) = true /\
  complete (solutionGrid h) = true /\ agreesWith (currentGrid h) (solutionGrid h) /\
  exists r h', getHint h = Done r h' /\
    match r with
    | None =>
        currentGrid h = solutionGrid h /\ draws (generator h') = draws (generator h)
    | Some hint =>
        exists v, hintValue hint = Some v /\
          agreesWith (writeCell (currentGrid h) (hintRow hint) (hintCol hint) v)
            (solutionGrid h) /\
          hasShape 4 (writeCell (currentGrid h) (hintRow hint) (hintCol hint) v) = true /\
          zeros (currentGrid h)
          = S (zeros (writeCell (currentGrid h) (hintRow hint) (hintCol hint) v)) /\
          draws (generator h') = S (draws (generator h))
    end.
Proof.
  cbv zeta.
  assert (Hag : agreesWith puzzle4 solved4).
  { apply (solvePuzzleFuel_keeps (S (zeros puzzle4))). by vm_compute. }
  split; [reflexivity|]. split; [reflexivity|]. split; [reflexivity|]. split; [exact Hag|].
  apply (hint_applied 4); [reflexivity|reflexivity|reflexivity|exact Hag].
Defined.

(** * The checks of the game *)

Lemma others_app (row col : nat) (l1 l2 : list (index * index)) :
  others row col (l1 ++ l2) = others row col l1 ++ others row col l2.
Proof. apply List.filter_app. Qed.

Lemma others_whole (row col : nat) (ps : list (nat * nat)) :
  others row col (map whole ps)
  = map whole (List.filter (fun q => negb (bool_decide (q = (row, col)))) ps).
Proof.
  unfold others. induction ps as [|[r c] ps IH]; [done|]. simpl.
  assert (H : (r =? row) && (c =? col) = bool_decide ((r, c) = (row, col))).
  { destruct (Nat.eqb_spec r row) as [->|Hr], (Nat.eqb_spec c col) as [->|Hc]; simpl;
      [by rewrite bool_decide_eq_true_2|
       rewrite bool_decide_eq_false_2; [done|congruence]..]. }
  rewrite H. destruct (bool_decide ((r, c) = (row, col))); simpl; by rewrite IH.
Qed.

Lemma existsb_hit_whole (g : Grid) (v : Z) (ps : list (nat * nat)) :
  existsb (hit g v) (map whole ps) = existsb (holds g v) ps.
Proof. induction ps as [|q l IH]; [done|]. simpl. by rewrite IH, hit_whole. Qed.

Lemma hasConflict_hit (gridSize : nat) (g : Grid) (row col : nat) (v : Z) :
  let scanned := rowCells gridSize row ++ colCells gridSize col
                   ++ (if gridSize =? 6 then box6Cells row col
                       else sqrtBoxCells gridSize row col) in
  Forall (fun p => readCell g p.1 p.2 <> TypeError) (others row col scanned) ->
  hasConflict gridSize g row col v = Ret (existsb (hit g v) (others row col scanned)).
Proof.
  cbv zeta. rewrite !others_app. intros H.
  apply Forall_app in H as [Hr H]. apply Forall_app in H as [Hc Hb].
  unfold hasConflict. rewrite !existsb_app, !occursAt_hit by done.
  destruct (existsb (hit g v) (others row col (rowCells gridSize row))); [done|].
  by destruct (existsb (hit g v) (others row col (colCells gridSize col))).
Qed.

(** For a supported size, [hasConflict] returns whether a peer other than
    the cell itself holds the value. *)
Lemma hasConflict_peers (N : nat) (g : Grid) (row col : nat) (v : Z) :
  supported N -> length g = N -> (row, col) ∈ allCells N ->
  hasConflict N g row col v
  = Ret (existsb (holds g v)
           (List.filter (fun q => negb (bool_decide (q = (row, col)))) (peers N (row, col)))).
Proof.
  intros HN Hl Hp. pose proof (scanned_peers N (row, col) HN) as Hscan. simpl in Hscan.
  rewrite hasConflict_hit; rewrite Hscan, others_whole.
  - by rewrite existsb_hit_whole.
  - pose proof (peers_no_TypeError N g (row, col) (supported_geometry N HN) Hl Hp) as H.
    rewrite Forall_forall in H. apply Forall_forall. intros p Hin. apply H.
    apply list_elem_of_In, in_map_iff in Hin as (q & <- & Hq).
    apply filter_In in Hq as [Hq _]. by apply list_elem_of_In, in_map.
Qed.

Lemma isPuzzleComplete_holds (N : nat) (g : Grid) :
  length g = N -> isPuzzleComplete N g = Ret (negb (existsb (holds g 0) (allCells N))).
Proof.
  intros Hl. unfold isPuzzleComplete. rewrite occursAt_hit.
  - by rewrite existsb_hit_whole.
  - apply Forall_map, Forall_forall. intros [r c] [Hr _]%elem_of_allCells. simpl.
    destruct (lookup_lt_is_Some_2 g r) as [cells E]; [lia|].
    unfold readCell. rewrite E. by destruct (cells !! c).
Qed.

Lemma holds_cleared (g : Grid) (row col : nat) (v : Z) (ps : list (nat * nat)) :
  v <> 0%Z ->
  existsb (holds (writeCell g row col 0) v) ps
  = existsb (holds g v) (List.filter (fun q => negb (bool_decide (q = (row, col)))) ps).
Proof.
  intros Hv. induction ps as [|[r c] ps IH]; [done|]. simpl. rewrite IH.
  destruct (decide ((r, c) = (row, col))) as [[= -> ->]|Hne].
  - rewrite bool_decide_eq_true_2 by done. simpl.
    assert (H : holds (writeCell g row col 0) v (row, col) = false).
    { unfold holds. simpl. destruct (cell (writeCell g row col 0) row col) as [w|] eqn:E; [|done].
      apply cell_writeCell in E as [[_ ->]|[? _]]; [|done]. by apply Z.eqb_neq. }
    by rewrite H.
  - rewrite bool_decide_eq_false_2 by done. simpl. f_equal.
    unfold holds. simpl. rewrite cell_writeCell_ne; [done|congruence].
Qed.

(** X15. The conflict check of the game is the validator of the engine with the
    cell itself set aside: on a grid of a supported size, a non-zero value
    conflicts at a cell exactly when the validator rejects it on the grid in
    which that cell is emptied. *)
Theorem hasConflict_is_validator (N : nat) (g : Grid) (row col : nat) (value : Z) :
  supported N -> hasShape N g = true -> row < N -> col < N -> value <> 0%Z ->
  exists b, hasConflict N g row col value = Ret b /\
            isValidForGrid (writeCell g row col 0) row col value = Ret (negb b).
Proof.
  intros HN Hsh Hrow Hcol Hv. apply hasShape_spec in Hsh as [Hl _].
  assert (Hp : (row, col) ∈ allCells N) by (by apply elem_of_allCells).
  rewrite (hasConflict_peers N g row col value HN Hl Hp). eexists. split; [done|].
  rewrite (isValidForGrid_peers N _ row col value HN); [|by rewrite length_writeCell|done].
  by rewrite holds_cleared.
Qed.

Lemma hasConflict_is_validator_witness :
  supported 4 /\ hasShape 4 puzzle4 = true /\
  hasConflict 4 puzzle4 0 1 4 = Ret true /\
  exists b, hasConflict 4 puzzle4 0 0 1 = Ret b /\
            isValidForGrid (writeCell puzzle4 0 0 0) 0 0 1 = Ret (negb b).
Proof.
  assert (H : supported 4) by (by left).
  split; [done|]. split; [reflexivity|]. split; [reflexivity|].
  apply (hasConflict_is_validator 4 puzzle4 0 0 1 H); [reflexivity|lia|lia|lia].
Defined.

(** X16. What [checkSolution] tests decides validity: a grid of a supported size
    with content in [0..N] satisfies the validity invariant exactly when
    [isPuzzleComplete] returns true and [hasConflict] returns false at every
    cell for the value the cell holds. *)
Theorem complete_without_conflict_iff_valid (N : nat) (g : Grid) :
  supported N -> hasShape N g = true -> inRangeb N g = true ->
  (isPuzzleComplete N g = Ret true /\
   forall r c v, cell g r c = Some v -> hasConflict N g r c v = Ret false)
  <-> sudokuValid N g = true.
Proof.
  intros HN Hsh Hrg. pose proof (supported_geometry N HN) as HG.
  apply hasShape_spec in Hsh as Hl. destruct Hl as [Hl _].
  rewrite (isPuzzleComplete_holds N g Hl).
  assert (Hinside : forall r c v, cell g r c = Some v -> (r, c) ∈ allCells N).
  { intros r c v Hc. apply elem_of_allCells, (cell_is_Some N g r c Hsh). by exists v. }
  split.
  - intros [Hcomp Hnc].
    assert (Hfull : forall r c, cell g r c <> Some 0%Z).
    { intros r c Hc. injection Hcomp as Hcomp. apply negb_true_iff in Hcomp.
      apply (holds_absent g 0 (allCells N) (r, c)); [done|by eapply Hinside|done]. }
    apply consistent_full_valid; [done| |done].
    split; [done|]. split.
    + intros r c v Hc. unfold cell in Hc. destruct (g !! r) as [cells|] eqn:Hr; [|done].
      unfold inRangeb in Hrg. rewrite forallb_forall in Hrg.
      specialize (Hrg cells). rewrite forallb_forall in Hrg.
      assert (H : (0 <=? v)%Z && (v <=? Z.of_nat N)%Z = true).
      { apply Hrg; apply list_elem_of_In; by eapply list_elem_of_lookup_2. }
      apply andb_true_iff in H as [H1 H2]. lia.
    + intros [pr pc] q v Hp Hq Hne Hcp Hcq. exfalso. simpl in Hcp.
      specialize (Hnc pr pc v Hcp). rewrite (hasConflict_peers N g pr pc v HN Hl Hp) in Hnc.
      injection Hnc as Hnc.
      apply (holds_absent g v _ q Hnc); [|done].
      apply list_elem_of_In, filter_In. split; [by apply list_elem_of_In|].
      by rewrite bool_decide_eq_false_2.
  - intros Hv. destruct (valid_consistent_full N g HG Hv) as [(_ & _ & Hcl) Hfull]. split.
    + f_equal. apply negb_true_iff, not_true_iff_false.
      intros (q & _ & Hh)%existsb_exists. unfold holds in Hh.
      destruct (cell g q.1 q.2) as [w|] eqn:Hc; [|done].
      apply Z.eqb_eq in Hh as ->. by apply (Hfull q.1 q.2).
    + intros r c v Hc. rewrite (hasConflict_peers N g r c v HN Hl) by (by eapply Hinside).
      f_equal. apply not_true_iff_false. intros (q & Hq & Hh)%existsb_exists.
      apply filter_In in Hq as [Hq Hne]. apply list_elem_of_In in Hq.
      apply negb_true_iff, bool_decide_eq_false in Hne.
      unfold holds in Hh. destruct (cell g q.1 q.2) as [w|] eqn:Hcq; [|done].
      apply Z.eqb_eq in Hh as ->. apply (Hfull r c). rewrite Hc. f_equal.
      apply (Hcl (r, c) q v); [by eapply Hinside|done|done|done|done].
Qed.

Lemma complete_without_conflict_iff_valid_witness :
  supported 4 /\ hasShape 4 allOnes4 = true /\ inRangeb 4 allOnes4 = true /\
  isPuzzleComplete 4 allOnes4 = Ret true /\ hasConflict 4 allOnes4 0 0 1 = Ret true /\
  ((isPuzzleComplete 4 allOnes4 = Ret true /\
    forall r c v, cell allOnes4 r c = Some v -> hasConflict 4 allOnes4 r c v = Ret false)
   <-> sudokuValid 4 allOnes4 = true).
Proof.
  assert (H : supported 4) by (by left).
  split; [done|]. split; [reflexivity|]. split; [reflexivity|].
  split; [reflexivity|]. split; [reflexivity|].
  apply (complete_without_conflict_iff_valid 4 allOnes4 H); reflexivity.
Defined.

(** X17. The completion check of the game and the hint provider agree: on grids of
    the same square shape [getHint] returns null exactly when
    [isPuzzleComplete] returns true. *)
Theorem null_hint_iff_complete (N : nat) (h : HintState) :
  hasShape N (currentGrid h) = true -> hasShape N (solutionGrid h) = true ->
  (isPuzzleComplete N (currentGrid h) = Ret true <-> getHint h = Done None h).
Proof.
  intros Hcur Hsol. apply hasShape_spec in Hcur as Hl. destruct Hl as [Hl _].
  rewrite (isPuzzleComplete_holds N _ Hl).
  destruct (getHint_cases N h Hcur Hsol) as [[E Hnz]|(row & col & v & E & Hz & Hv)].
  - split; [done|]. intros _. f_equal. apply negb_true_iff, not_true_iff_false.
    intros (q & _ & Hh)%existsb_exists. unfold holds in Hh.
    destruct (cell (currentGrid h) q.1 q.2) as [w|] eqn:Hc; [|done].
    apply Z.eqb_eq in Hh as ->. by apply (Hnz q.1 q.2).
  - split; [|rewrite E; done]. intros [= Hcomp%negb_true_iff]. exfalso.
    apply (holds_absent _ 0 (allCells N) (row, col) Hcomp); [|done].
    apply elem_of_allCells, (cell_is_Some N _ row col Hcur). by exists 0%Z.
Qed.

Lemma null_hint_iff_complete_witness :
  let h := {| currentGrid := solved4; solutionGrid := solved4;
              generator := newGenerator frozenClock zeroRandom |} in
  hasShape 4 (currentGrid h) = true /\ hasShape 4 (solutionGrid h) = true /\
  isPuzzleComplete 4 (currentGrid h) = Ret true /\
  (isPuzzleComplete 4 (currentGrid h) = Ret true <-> getHint h = Done None h).
Proof.
  cbv zeta. split; [reflexivity|]. split; [reflexivity|]. split; [reflexivity|].
  apply (null_hint_iff_complete 4); reflexivity.
Defined.

(** A scanning loop returns false exactly when every listed cell can be
    read and none holds the number. *)
Lemma occursAt_false (g : Grid) (num : Z) (ps : list (index * index)) :
  occursAt g num ps = Ret false
  <-> Forall (fun p => readCell g p.1 p.2 <> TypeError /\ hit g num p = false) ps.
Proof.
  induction ps as [|[r c] ps IH]; simpl; [by split|].
  rewrite Forall_cons, <- IH. unfold hit. simpl.
  destruct (readCell g r c) as [v| |]; [destruct (Z.eqb v num)|..]; split; intros H;
    try done; try (by destruct H as [[_ ?] _]); try (by destruct H as [[? _] _]);
    try (by destruct H); by split.
Qed.

(** X18. If a cell conflicts with another, the other conflicts with it: the
    cells that [hasConflict] reports come at least in pairs. *)
Theorem conflicts_in_pairs (N : nat) (g : Grid) (row col : nat) (v : Z) :
  supported N -> hasShape N g = true -> cell g row col = Some v ->
  hasConflict N g row col v = Ret true ->
  exists r c, (r, c) <> (row, col) /\ cell g r c = Some v /\
              hasConflict N g r c v = Ret true.
Proof.
  intros HN Hsh Hc Hconf. pose proof (supported_geometry N HN) as HG.
  apply hasShape_spec in Hsh as Hl. destruct Hl as [Hl _].
  assert (Hp : (row, col) ∈ allCells N).
  { apply elem_of_allCells, (cell_is_Some N g row col Hsh). by exists v. }
  rewrite (hasConflict_peers N g row col v HN Hl Hp) in Hconf.
  injection Hconf as Hconf. apply existsb_exists in Hconf as ([r c] & Hq & Hh).
  apply filter_In in Hq as [Hq Hne]. apply list_elem_of_In in Hq.
  apply negb_true_iff, bool_decide_eq_false in Hne.
  unfold holds in Hh. simpl in Hh. destruct (cell g r c) as [w|] eqn:Hcq; [|done].
  apply Z.eqb_eq in Hh as ->. exists r, c. split; [done|]. split; [done|].
  rewrite (hasConflict_peers N g r c v HN Hl) by (by apply (peers_inside N (row, col))).
  f_equal. apply existsb_exists. exists (row, col). split.
  - apply filter_In. split; [by apply list_elem_of_In, (peers_sym N (row, col))|].
    apply negb_true_iff, bool_decide_eq_false. congruence.
  - unfold holds. simpl. rewrite Hc. apply Z.eqb_refl.
Qed.

Lemma conflicts_in_pairs_witness :
  supported 4 /\ hasShape 4 allOnes4 = true /\ cell allOnes4 0 0 = Some 1%Z /\
  hasConflict 4 allOnes4 0 0 1 = Ret true /\
  exists r c, (r, c) <> (0, 0) /\ cell allOnes4 r c = Some 1%Z /\
              hasConflict 4 allOnes4 r c 1 = Ret true.
Proof.
  assert (H : supported 4) by (by left).
  split; [done|]. split; [reflexivity|]. split; [reflexivity|]. split; [reflexivity|].
  apply (conflicts_in_pairs 4 allOnes4 0 0 1 H); reflexivity.
Defined.

(** X19. [isPuzzleComplete] on any array of rows, whatever their lengths: it
    returns true exactly when the first [gridSize] rows exist and none of
    their first [gridSize] entries is zero.  With fewer rows than
    [gridSize] it never returns true. *)
Theorem isPuzzleComplete_true_iff (gridSize : nat) (grid : Grid) :
  isPuzzleComplete gridSize grid = Ret true
  <-> gridSize <= length grid /\
      forall r c, r < gridSize -> c < gridSize -> cell grid r c <> Some 0%Z.
Proof.
  unfold isPuzzleComplete.
  assert (H : occursAt grid 0 (map whole (allCells gridSize)) = Ret false
              <-> gridSize <= length grid /\
                  forall r c, r < gridSize -> c < gridSize -> cell grid r c <> Some 0%Z).
  { rewrite occursAt_false, Forall_map, Forall_forall. split.
    - intros H. split.
      + destruct gridSize as [|n]; [lia|].
        destruct (H (n, 0)) as [Hr _]; [apply elem_of_allCells; lia|].
        unfold whole, readCell in Hr. simpl in Hr.
        destruct (grid !! n) as [cells|] eqn:E; [|done].
        apply lookup_lt_Some in E. lia.
      + intros r c Hr Hc Hz. destruct (H (r, c)) as [_ Hh]; [by apply elem_of_allCells|].
        rewrite hit_whole in Hh. unfold holds in Hh. simpl in Hh. by rewrite Hz in Hh.
    - intros [Hle Hnz] [r c] [Hr Hc]%elem_of_allCells. split.
      + unfold whole, readCell. simpl.
        destruct (lookup_lt_is_Some_2 grid r) as [cells E]; [lia|]. rewrite E.
        by destruct (cells !! c).
      + rewrite hit_whole. unfold holds. simpl.
        destruct (cell grid r c) as [w|] eqn:E; [|done].
        apply Z.eqb_neq. intros ->. by apply (Hnz r c). }
  rewrite <- H.
  destruct (occursAt grid 0 (map whole (allCells gridSize))) as [[|]|]; split; intros; done.
Qed.

Lemma isPuzzleComplete_true_iff_witness :
  isPuzzleComplete 4 solved4 = Ret true /\
  isPuzzleComplete 4 puzzle4 = Ret false /\
  isPuzzleComplete 5 solved4 = Throw /\
  (4 <= length solved4 /\
   forall r c, r < 4 -> c < 4 -> cell solved4 r c <> Some 0%Z).
Proof.
  split; [reflexivity|]. split; [reflexivity|]. split; [reflexivity|].
  apply (proj1 (isPuzzleComplete_true_iff 4 solved4)). reflexivity.
Defined.
